(** * GIF Duel: the vote-tallying reducer, the pairing helper and the pool cache

    A shallow embedding of [src/src/GifVote.tsx].

    Conventions of the embedding:
    - a JavaScript [number] holding a counter, a round, a length or a
      timestamp is an integer of [Z] (exact arithmetic; the counters of the
      program stay far below 2^53);
    - a JavaScript string is a [string]: a sequence of code units, here
      restricted to the range 0..255 (Latin-1), one [ascii] per unit;
    - [T | null] is [option T];
    - [Date.now()], [Math.random()], [crypto.randomUUID()] and the network
      are inputs: the clock is an argument of the reducer, the other three
      are streams and functions of an environment record;
    - the provider's functions are first given as run from start to end,
      an [await] being a step of the same computation; [ensurePool] and
      [loadNextPair] are then also given in their two steps, before and
      after the wait for the response, for the properties that depend on
      calls overlapping. *)

From Stdlib Require Import ZArith QArith Qround String Ascii List Lia DecimalString.
From stdpp Require Import gmap strings.
From Stdlib Require Import DecimalZ DecimalPos Sorted Permutation.
From stdpp Require Import sorting.
Import ListNotations.

Local Open Scope string_scope.
Local Open Scope Z_scope.

(** ** Types *)

Inductive VoteType := Like | Funny.
Inductive Side := Left | Right.

Definition VoteType_eqb (a b : VoteType) : bool :=
  match a, b with
  | Like, Like | Funny, Funny => true
  | _, _ => false
  end.

Definition Side_eqb (a b : Side) : bool :=
  match a, b with
  | Left, Left | Right, Right => true
  | _, _ => false
  end.

Record GifItem := mkGifItem {
  id : string;
  title : string;
  displayUrl : string
}.

Record VoteRecord := mkVoteRecord {
  vr_round : Z;
  vr_theme : string;
  voteType : VoteType;
  winnerSide : Side;
  leftId : string;
  rightId : string;
  ts : Z
}.

(** [{ left: number; right: number }] *)
Record Tally := mkTally { left : Z; right : Z }.

Record Score := mkScore { like : Tally; funny : Tally }.

Record GameState := mkGameState {
  theme : string;
  round : Z;
  leftGif : option GifItem;
  rightGif : option GifItem;
  poolCount : Z;
  score : Score;
  history : list VoteRecord;
  isLoading : bool;
  error : option string
}.

Inductive Action :=
| SET_THEME (theme : string)
| LOAD_PAIR_START
| LOAD_PAIR_SUCCESS (leftGif rightGif : GifItem) (poolCount : Z)
| LOAD_PAIR_ERROR (error : string)
| VOTE (voteType : VoteType) (winnerSide : Side)
| UNDO_LAST_VOTE
| RESET_RUN.

(** ** Initial state *)

Definition zeroScore : Score :=
  {| like := {| left := 0; right := 0 |};
     funny := {| left := 0; right := 0 |} |}.

Definition initialState : GameState :=
  {| theme := "cats";
     round := 1;
     leftGif := None;
     rightGif := None;
     poolCount := 0;
     score := zeroScore;
     history := [];
     isLoading := false;
     error := None |}.

(** ** Reducer *)

(** [t[side]] and [t[side] = v] on a copy of [t]. *)
Definition getSide (t : Tally) (sd : Side) : Z :=
  match sd with Left => left t | Right => right t end.

Definition setSide (t : Tally) (sd : Side) (v : Z) : Tally :=
  match sd with
  | Left => {| left := v; right := right t |}
  | Right => {| left := left t; right := v |}
  end.

(** [score[voteType][side]] *)
Definition cell (sc : Score) (vt : VoteType) (sd : Side) : Z :=
  match vt with
  | Like => getSide (like sc) sd
  | Funny => getSide (funny sc) sd
  end.

(** [now] is the value [Date.now()] returns during the call. *)
Definition gameReducer (now : Z) (state : GameState) (action : Action)
  : GameState :=
  match action with
  | SET_THEME th =>
      {| theme := th;
         round := 1;
         leftGif := None;
         rightGif := None;
         poolCount := 0;
         score := zeroScore;
         history := [];
         isLoading := isLoading state;
         error := None |}
  | LOAD_PAIR_START =>
      {| theme := theme state;
         round := round state;
         leftGif := leftGif state;
         rightGif := rightGif state;
         poolCount := poolCount state;
         score := score state;
         history := history state;
         isLoading := true;
         error := None |}
  | LOAD_PAIR_SUCCESS l r n =>
      {| theme := theme state;
         round := round state;
         leftGif := Some l;
         rightGif := Some r;
         poolCount := n;
         score := score state;
         history := history state;
         isLoading := false;
         error := None |}
  | LOAD_PAIR_ERROR e =>
      {| theme := theme state;
         round := round state;
         leftGif := leftGif state;
         rightGif := rightGif state;
         poolCount := poolCount state;
         score := score state;
         history := history state;
         isLoading := false;
         error := Some e |}
  | VOTE vt sd =>
      match leftGif state, rightGif state with
      | Some l, Some r =>
          let nextScore :=
            match vt with
            | Like =>
                {| like := setSide (like (score state)) sd
                             (getSide (like (score state)) sd + 1);
                   funny := funny (score state) |}
            | Funny =>
                {| like := like (score state);
                   funny := setSide (funny (score state)) sd
                              (getSide (funny (score state)) sd + 1) |}
            end in
          let record :=
            {| vr_round := round state;
               vr_theme := theme state;
               voteType := vt;
               winnerSide := sd;
               leftId := id l;
               rightId := id r;
               ts := now |} in
          {| theme := theme state;
             round := round state + 1;
             leftGif := leftGif state;
             rightGif := rightGif state;
             poolCount := poolCount state;
             score := nextScore;
             history := record :: history state;
             isLoading := isLoading state;
             error := error state |}
      | _, _ => state
      end
  | UNDO_LAST_VOTE =>
      match history state with
      | [] => state
      | last :: rest =>
          let nextScore :=
            match voteType last with
            | Like =>
                {| like := setSide (like (score state)) (winnerSide last)
                             (Z.max 0
                                (getSide (like (score state)) (winnerSide last) - 1));
                   funny := funny (score state) |}
            | Funny =>
                {| like := like (score state);
                   funny := setSide (funny (score state)) (winnerSide last)
                              (Z.max 0
                                 (getSide (funny (score state)) (winnerSide last) - 1)) |}
            end in
          {| theme := theme state;
             round := Z.max 1 (round state - 1);
             leftGif := leftGif state;
             rightGif := rightGif state;
             poolCount := poolCount state;
             score := nextScore;
             history := rest;
             isLoading := isLoading state;
             error := error state |}
      end
  | RESET_RUN =>
      {| theme := theme state;
         round := 1;
         leftGif := None;
         rightGif := None;
         poolCount := 0;
         score := zeroScore;
         history := [];
         isLoading := isLoading state;
         error := None |}
  end.

(** A run of the reducer: each dispatched action comes with the clock value
    read while it is reduced. *)
Definition run (s : GameState) (tr : list (Z * Action)) : GameState :=
  fold_left (fun st da => gameReducer (fst da) st (snd da)) tr s.

(** Number of records of [h] voted as [(vt, sd)]. *)
Definition matches (vt : VoteType) (sd : Side) (r : VoteRecord) : bool :=
  VoteType_eqb (voteType r) vt && Side_eqb (winnerSide r) sd.

Definition countVotes (h : list VoteRecord) (vt : VoteType) (sd : Side) : Z :=
  Z.of_nat (length (List.filter (matches vt sd) h)).

(** ** Strings *)

(** The code units below 256 that [String.prototype.trim] strips: TAB, LF,
    VT, FF, CR, SPACE and NO-BREAK SPACE. *)
Definition isWhiteSpace (c : ascii) : bool :=
  let n := N_of_ascii c in
  ((9 <=? n) && (n <=? 13) || (n =? 32) || (n =? 160))%N.

Fixpoint trimStart (s : string) : string :=
  match s with
  | EmptyString => EmptyString
  | String c s' => if isWhiteSpace c then trimStart s' else s
  end.

Fixpoint trimEnd (s : string) : string :=
  match s with
  | EmptyString => EmptyString
  | String c s' =>
      match trimEnd s' with
      | EmptyString => if isWhiteSpace c then EmptyString else String c EmptyString
      | t => String c t
      end
  end.

(** [s.trim()] *)
Definition trim (s : string) : string := trimEnd (trimStart s).

(** [s.toLowerCase()] on code units below 256: A-Z and the accented capitals
    192..222 (without the multiplication sign 215) move up by 32. *)
Definition lowerChar (c : ascii) : ascii :=
  let n := N_of_ascii c in
  if ((65 <=? n) && (n <=? 90)
      || (192 <=? n) && (n <=? 222) && negb (n =? 215))%N
  then ascii_of_N (n + 32) else c.

Fixpoint toLowerCase (s : string) : string :=
  match s with
  | EmptyString => EmptyString
  | String c s' => String (lowerChar c) (toLowerCase s')
  end.

Fixpoint allWhiteSpace (s : string) : bool :=
  match s with
  | EmptyString => true
  | String c s' => isWhiteSpace c && allWhiteSpace s'
  end.

Definition firstChar (s : string) : option ascii :=
  match s with EmptyString => None | String c _ => Some c end.

Fixpoint lastChar (s : string) : option ascii :=
  match s with
  | EmptyString => None
  | String c EmptyString => Some c
  | String _ s' => lastChar s'
  end.

(** Truthiness of a string: only the empty string is falsy. *)
Definition truthy (s : string) : bool :=
  match s with EmptyString => false | String _ _ => true end.

(** [a || b] on strings. *)
Definition strOr (a b : string) : string := if truthy a then a else b.

(** [String(n)] for an integer [n]. *)
Definition showNumber (n : Z) : string := NilZero.string_of_int (Z.to_int n).

(** ** The outside world *)

Inductive Rating := G | PG | PG13.

Definition ratingString (r : Rating) : string :=
  match r with G => "g" | PG => "pg" | PG13 => "pg-13" end.

(** One element of [json.data], read as [normalizeGif] reads it: a field is
    [None] when it (or an object on the way to it) is absent or null. *)
Record RawGif := mkRawGif {
  raw_id : option string;
  raw_title : option string;
  fixed_width_url : option string;
  downsized_url : option string;
  original_url : option string
}.

(** The query parameters of the search request. *)
Record Request := mkRequest {
  api_key : string;
  q : string;
  req_limit : string;
  req_rating : string;
  lang : string
}.

(** [res.json()] rejects, or resolves to a value whose [data] field is an
    array ([Some]) or anything else ([None]). *)
Inductive Body :=
| BodyRejected (message : option string)
| BodyJson (data : option (list RawGif)).

Record Response := mkResponse {
  ok : bool;
  status : Z;
  statusText : string;
  body : Body
}.

(** [fetch(url)] rejects (network failure) or resolves to a response. *)
Inductive FetchResult :=
| FetchRejected (message : option string)
| FetchResolved (res : Response).

(** What the provider is given: the configured key ([""] when neither
    variable is set), the selected rating, the answer of the network to the
    [n]-th request, and the streams behind [Math.random()] and
    [crypto.randomUUID()]. *)
Record Env := mkEnv {
  apiKey : string;
  rating : Rating;
  fetch : nat -> Request -> FetchResult;
  mathRandom : nat -> Q;
  randomUUID : nat -> string
}.

(** [Math.random()] lies in [0, 1). *)
Definition randomInUnit (env : Env) : Prop :=
  forall k, (0 <= mathRandom env k /\ mathRandom env k < 1)%Q.

(** [useState<number>(25)], never set again. *)
Definition limit : Z := 25.

(** The mutable state around the functions: the reducer state held by
    [useReducer], the [Map] behind [poolCacheRef], the requests sent so far
    (newest first), how many random numbers and identifiers were drawn, and
    the clock: what [Date.now()] answers during the call at hand. *)
Record World := mkWorld {
  game : GameState;
  poolCache : gmap string (list GifItem);
  requests : list Request;
  randomsDrawn : nat;
  uuidsDrawn : nat;
  clock : Z
}.

(** ** Computations: state, exceptions, and loops that may not end *)

(** [Threw m]: a value was thrown whose [message] is [m] ([None] when it has
    none). [Pending]: the loop bound was used up before the call settled. *)
Inductive Outcome (A : Type) :=
| Returned (a : A)
| Threw (message : option string)
| Pending.
Arguments Returned {A} a.
Arguments Threw {A} message.
Arguments Pending {A}.

Definition M (A : Type) : Type := World -> Outcome A * World.

Definition ret {A} (a : A) : M A := fun w => (Returned a, w).

Definition bind {A B} (m : M A) (k : A -> M B) : M B :=
  fun w =>
    match m w with
    | (Returned a, w') => k a w'
    | (Threw e, w') => (Threw e, w')
    | (Pending, w') => (Pending, w')
    end.

(** [throw new Error(msg)] *)
Definition throwError {A} (msg : string) : M A := fun w => (Threw (Some msg), w).

(** [try { m } catch (err) { handler(err?.message) }] *)
Definition tryCatch {A} (m : M A) (handler : option string -> M A) : M A :=
  fun w =>
    match m w with
    | (Threw e, w') => handler e w'
    | r => r
    end.

Declare Scope js_scope.
Delimit Scope js_scope with js.
Notation "x <- m ;; k" := (bind m (fun x => k))
  (at level 100, m at next level, right associativity) : js_scope.
Notation "m ;;; k" := (bind m (fun _ => k))
  (at level 100, right associativity) : js_scope.
Local Open Scope js_scope.

Definition dispatch (a : Action) : M unit :=
  fun w =>
    (Returned tt,
     {| game := gameReducer (clock w) (game w) a;
        poolCache := poolCache w;
        requests := requests w;
        randomsDrawn := randomsDrawn w;
        uuidsDrawn := uuidsDrawn w;
        clock := clock w |}).

Definition getState : M GameState := fun w => (Returned (game w), w).

(** [poolCacheRef.current.get(key)] *)
Definition cacheGet (key : string) : M (option (list GifItem)) :=
  fun w => (Returned (poolCache w !! key), w).

(** [poolCacheRef.current.set(key, pool)] *)
Definition cacheSet (key : string) (pool : list GifItem) : M unit :=
  fun w =>
    (Returned tt,
     {| game := game w;
        poolCache := <[key := pool]> (poolCache w);
        requests := requests w;
        randomsDrawn := randomsDrawn w;
        uuidsDrawn := uuidsDrawn w;
        clock := clock w |}).

(** [await fetch(url)] *)
Definition doFetch (env : Env) (rq : Request) : M Response :=
  fun w =>
    let w' :=
      {| game := game w;
         poolCache := poolCache w;
         requests := rq :: requests w;
         randomsDrawn := randomsDrawn w;
         uuidsDrawn := uuidsDrawn w;
         clock := clock w |} in
    match fetch env (length (requests w)) rq with
    | FetchRejected e => (Threw e, w')
    | FetchResolved res => (Returned res, w')
    end.

(** [Math.random()] *)
Definition random (env : Env) : M Q :=
  fun w =>
    (Returned (mathRandom env (randomsDrawn w)),
     {| game := game w;
        poolCache := poolCache w;
        requests := requests w;
        randomsDrawn := S (randomsDrawn w);
        uuidsDrawn := uuidsDrawn w;
        clock := clock w |}).

(** [crypto.randomUUID()] *)
Definition freshUUID (env : Env) : M string :=
  fun w =>
    (Returned (randomUUID env (uuidsDrawn w)),
     {| game := game w;
        poolCache := poolCache w;
        requests := requests w;
        randomsDrawn := randomsDrawn w;
        uuidsDrawn := S (uuidsDrawn w);
        clock := clock w |}).

Fixpoint mapM {A B} (f : A -> M B) (l : list A) : M (list B) :=
  match l with
  | [] => ret []
  | x :: l' => y <- f x ;; ys <- mapM f l' ;; ret (y :: ys)
  end.

(** ** GIPHY helpers *)

(** [a || b] where [a] may also be absent. *)
Definition optOr (a : option string) (b : string) : string :=
  match a with
  | Some s => strOr s b
  | None => b
  end.

(** The image variant [normalizeGif] shows: the first of [fixed_width],
    [downsized], [original] with a non-empty url, else [""]. *)
Definition rawDisplayUrl (raw : RawGif) : string :=
  optOr (fixed_width_url raw)
    (optOr (downsized_url raw) (optOr (original_url raw) "")).

Definition normalizeGif (env : Env) (raw : RawGif) : M GifItem :=
  let displayUrl := rawDisplayUrl raw in
  i <- match raw_id raw with
       | Some i => ret i
       | None => freshUUID env
       end ;;
  ret {| id := i;
         title := match raw_title raw with Some t => t | None => "Untitled" end;
         displayUrl := displayUrl |}.

(** inclusive min, exclusive max *)
Definition randomInt (env : Env) (min max : Z) : M Z :=
  r <- random env ;;
  ret (Qfloor (r * inject_Z (max - min))%Q + min).

(** [arr[i]]; [d] stands for [undefined], which [randomInt_range] below
    shows is never read. *)
Definition readAt {T} (arr : list T) (d : T) (i : Z) : T :=
  if i <? 0 then d else nth (Z.to_nat i) arr d.

(** [while (j === i) j = randomInt(0, n)], at most [bound] redraws. *)
Fixpoint redraw (env : Env) (n i : Z) (bound : nat) (j : Z) : M Z :=
  if j =? i then
    match bound with
    | O => fun w => (Pending, w)
    | S bound' => j' <- randomInt env 0 n ;; redraw env n i bound' j'
    end
  else ret j.

Definition pickTwoDistinct {T} (env : Env) (bound : nat) (arr : list T)
  : M (option (T * T)) :=
  match arr with
  | [] | [_] => ret None
  | d :: _ :: _ =>
      let n := Z.of_nat (length arr) in
      i <- randomInt env 0 n ;;
      j0 <- randomInt env 0 n ;;
      j <- redraw env n i bound j0 ;;
      ret (Some (readAt arr d i, readAt arr d j))
  end.

(** ** The provider's functions *)

Definition missingKeyMessage : string :=
  "Missing GIPHY API key. Set VITE_GIPHY_API_KEY or REACT_APP_GIPHY_API_KEY.".
Definition notEnoughResultsMessage : string :=
  "Not enough GIF results for that theme. Try another theme.".
Definition emptyThemeMessage : string := "Theme is empty. Type something.".
Definition notEnoughPoolMessage : string :=
  "Not enough GIFs in the pool. Try another theme.".

Definition upstreamMessage (res : Response) : string :=
  "GIPHY error: " +:+ showNumber (status res) +:+ " " +:+ statusText res.

(** [new URLSearchParams({ api_key, q, limit, rating, lang })] *)
Definition searchParams (env : Env) (theme : string) : Request :=
  {| api_key := apiKey env;
     q := theme;
     req_limit := showNumber limit;
     req_rating := ratingString (rating env);
     lang := "en" |}.

Definition fetchPool (env : Env) (theme : string) : M (list GifItem) :=
  if negb (truthy (apiKey env)) then throwError missingKeyMessage
  else
    let params := searchParams env theme in
    res <- doFetch env params ;;
    if negb (ok res) then throwError (upstreamMessage res)
    else
      match body res with
      | BodyRejected e => fun w => (Threw e, w)
      | BodyJson json =>
          let data := match json with Some d => d | None => [] end in
          items <- mapM (normalizeGif env) data ;;
          let normalized := List.filter (fun g => truthy (displayUrl g)) items in
          if Z.of_nat (length normalized) <? 2
          then throwError notEnoughResultsMessage
          else ret normalized
      end.

Definition poolKey (env : Env) (theme : string) : string :=
  toLowerCase (trim theme) +:+ "|" +:+ ratingString (rating env).

Definition ensurePool (env : Env) (theme : string) : M (list GifItem) :=
  let key := poolKey env theme in
  cached <- cacheGet key ;;
  match cached with
  | Some pool =>
      if 2 <=? Z.of_nat (length pool) then ret pool
      else
        fresh <- fetchPool env theme ;;
        cacheSet key fresh ;;;
        ret fresh
  | None =>
      fresh <- fetchPool env theme ;;
      cacheSet key fresh ;;;
      ret fresh
  end.

(** The body of the [try] block of [loadNextPair]. [bound] caps the redraws
    of [pickTwoDistinct]; the source has no cap, and a call that would
    exceed it is [Pending]. *)
Definition loadPairAttempt (env : Env) (bound : nat) : M unit :=
  state <- getState ;;
  let theme := trim (theme state) in
  if negb (truthy theme) then throwError emptyThemeMessage
  else
    pool <- ensurePool env theme ;;
    pair <- pickTwoDistinct env bound pool ;;
    match pair with
    | None => throwError notEnoughPoolMessage
    | Some (leftGif, rightGif) =>
        dispatch (LOAD_PAIR_SUCCESS leftGif rightGif (Z.of_nat (length pool)))
    end.

Definition loadNextPair (env : Env) (bound : nat) : M unit :=
  dispatch LOAD_PAIR_START ;;;
  tryCatch (loadPairAttempt env bound)
    (fun err =>
       dispatch (LOAD_PAIR_ERROR
                   (match err with Some m => m | None => "Unknown error" end))).

Definition setTheme (theme : string) : M unit :=
  dispatch (SET_THEME (strOr (trim theme) "cats")).

Definition vote (env : Env) (bound : nat) (voteType : VoteType)
  (winnerSide : Side) : M unit :=
  dispatch (VOTE voteType winnerSide) ;;;
  loadNextPair env bound.

Definition undo : M unit := dispatch UNDO_LAST_VOTE.

(** A world as the provider starts in: initial reducer state, empty cache. *)
Definition initialWorld (now : Z) : World :=
  {| game := initialState;
     poolCache := ∅;
     requests := [];
     randomsDrawn := 0;
     uuidsDrawn := 0;
     clock := now |}.

(** ** Predicates used by the statements *)

(** The data-model reading of a state: rounds start at 1 and no score cell
    is negative. *)
Definition wellFormed (s : GameState) : Prop :=
  1 <= round s /\ forall vt sd, 0 <= cell (score s) vt sd.

(** Every score cell counts the matching records of the history. *)
Definition tallied (s : GameState) : Prop :=
  forall vt sd, cell (score s) vt sd = countVotes (history s) vt sd.

(** [countdown n] is [n; n-1; ...; 1]. *)
Fixpoint countdown (n : nat) : list Z :=
  match n with
  | O => []
  | S m => Z.of_nat (S m) :: countdown m
  end.

(** The round counter is one ahead of the history, whose records carry the
    rounds [length; ...; 1], newest first. *)
Definition numbered (s : GameState) : Prop :=
  round s = Z.of_nat (length (history s)) + 1 /\
  map vr_round (history s) = countdown (length (history s)).

(** [sc] with the cell [(vt, sd)] replaced by [v]: the [nextScore] of [VOTE]
    and of [UNDO_LAST_VOTE] written once. *)
Definition bump (sc : Score) (vt : VoteType) (sd : Side) (v : Z) : Score :=
  match vt with
  | Like => {| like := setSide (like sc) sd v; funny := funny sc |}
  | Funny => {| like := like sc; funny := setSide (funny sc) sd v |}
  end.

(** A computation leaves the component [f] of the world as it was. *)
Definition keeps {A B} (f : World -> B) (m : M A) : Prop :=
  forall w, f (snd (m w)) = f w.

(** Index computed by [randomInt(0, n)] from the [k]-th random number. *)
Definition drawIndex (env : Env) (n : Z) (k : nat) : Z :=
  Qfloor (mathRandom env k * inject_Z (n - 0))%Q + 0.

(** What the network answers to the search [fetchPool env theme] sends
    from the world [w]. *)
Definition answer (env : Env) (theme : string) (w : World) : FetchResult :=
  fetch env (length (requests w)) (searchParams env theme).

(** Number of records of a response body with a non-empty display url. *)
Definition usableCount (json : option (list RawGif)) : nat :=
  length (List.filter truthy
            (map rawDisplayUrl (match json with Some d => d | None => [] end))).

(** The entry [ensurePool] reuses, if any: one cached under the key with at
    least 2 items. *)
Definition reusable (env : Env) (theme : string) (w : World)
  : option (list GifItem) :=
  match poolCache w !! poolKey env theme with
  | Some pool => if 2 <=? Z.of_nat (length pool) then Some pool else None
  | None => None
  end.

(** The fetch collaborator fails, or too few of its results are usable. *)
Inductive fetchFails (env : Env) (theme : string) (w : World) : Prop :=
| fails_rejected e :
    answer env theme w = FetchRejected e -> fetchFails env theme w
| fails_status res :
    answer env theme w = FetchResolved res -> ok res = false ->
    fetchFails env theme w
| fails_body res e :
    answer env theme w = FetchResolved res -> ok res = true ->
    body res = BodyRejected e -> fetchFails env theme w
| fails_few res json :
    answer env theme w = FetchResolved res -> ok res = true ->
    body res = BodyJson json -> (usableCount json < 2)%nat ->
    fetchFails env theme w.


(** A pool worth caching: at least 2 items, each with a display url. *)
Definition poolOk (pool : list GifItem) : Prop :=
  (2 <= length pool)%nat /\ Forall (fun g => displayUrl g <> "") pool.

Definition cacheOk (c : gmap string (list GifItem)) : Prop :=
  forall key pool, c !! key = Some pool -> poolOk pool.

(** Worlds whose cache was created empty and then written by whole calls
    of [ensurePool], one after the other. *)
Inductive cacheReached : World -> Prop :=
| reached_empty w : poolCache w = ∅ -> cacheReached w
| reached_ensure env theme w :
    cacheReached w -> cacheReached (snd (ensurePool env theme w))
| reached_other w w' :
    cacheReached w -> poolCache w' = poolCache w -> cacheReached w'.

(** The failures of a round load, and the message each one shows. *)
Inductive Failure :=
| EmptyTheme
| MissingCredential
| UpstreamError (res : Response)
| InsufficientResults.

Definition failureMessage (f : Failure) : string :=
  match f with
  | EmptyTheme => emptyThemeMessage
  | MissingCredential => missingKeyMessage
  | UpstreamError res => upstreamMessage res
  | InsufficientResults => notEnoughResultsMessage
  end.

(** When each failure arises for [loadNextPair] called in the world [w]. *)
Inductive failsWith (env : Env) (w : World) : Failure -> Prop :=
| with_empty_theme :
    trim (theme (game w)) = "" -> failsWith env w EmptyTheme
| with_missing_credential :
    trim (theme (game w)) <> "" ->
    reusable env (trim (theme (game w))) w = None ->
    apiKey env = "" ->
    failsWith env w MissingCredential
| with_upstream_error res :
    trim (theme (game w)) <> "" ->
    reusable env (trim (theme (game w))) w = None ->
    apiKey env <> "" ->
    answer env (trim (theme (game w))) w = FetchResolved res ->
    ok res = false ->
    failsWith env w (UpstreamError res)
| with_insufficient_results res json :
    trim (theme (game w)) <> "" ->
    reusable env (trim (theme (game w))) w = None ->
    apiKey env <> "" ->
    answer env (trim (theme (game w))) w = FetchResolved res ->
    ok res = true ->
    body res = BodyJson json ->
    (usableCount json < 2)%nat ->
    failsWith env w InsufficientResults.

(** States a run may start from: the initial one, and whatever [SET_THEME]
    or [RESET_RUN] produce. *)
Inductive freshRun : GameState -> Prop :=
| fresh_initial : freshRun initialState
| fresh_set_theme now s th : freshRun (gameReducer now s (SET_THEME th))
| fresh_reset now s : freshRun (gameReducer now s RESET_RUN).

(** ** Sample inputs *)

(** A state of the declared type that no run reaches: the pair is loaded
    and the round counter stands at 0. *)
Definition roundZeroState : GameState :=
  {| theme := "cats";
     round := 0;
     leftGif := Some {| id := "a"; title := "A"; displayUrl := "u" |};
     rightGif := Some {| id := "b"; title := "B"; displayUrl := "v" |};
     poolCount := 2;
     score := zeroScore;
     history := [];
     isLoading := false;
     error := None |}.

(** The scenario of the specification: theme "cats", three votes like/left,
    one undo. *)
Definition scenarioRun : list (Z * Action) :=
  [ (0, LOAD_PAIR_SUCCESS (mkGifItem "a" "A" "u") (mkGifItem "b" "B" "v") 2);
    (1, VOTE Like Left); (2, VOTE Like Left); (3, VOTE Like Left);
    (4, UNDO_LAST_VOTE) ].

(** An environment for the examples: the network answers every request with
    four records, one of them without a usable url; random numbers
    alternate between 0 and 2/3. *)
Definition sampleData : list RawGif :=
  [ mkRawGif (Some "a") (Some "A") (Some "u1") None None;
    mkRawGif (Some "b") None (Some "") None None;
    mkRawGif (Some "c") None None (Some "u3") None;
    mkRawGif None None None None (Some "u4") ].

Definition sampleEnv : Env :=
  {| apiKey := "KEY";
     rating := PG;
     fetch := fun _ _ =>
       FetchResolved
         {| ok := true; status := 200; statusText := "OK";
            body := BodyJson (Some sampleData) |};
     mathRandom := fun k => if Nat.even k then 0%Q else (2 # 3)%Q;
     randomUUID := fun _ => "generated" |}.

(** The world after one successful load with [sampleEnv]: a pair is on the
    board and the pool is cached under ["cats|pg"]. *)
Definition boardWorld : World := snd (loadNextPair sampleEnv 3 (initialWorld 0)).

(** The same provider with rating G while the service is down. *)
Definition downEnv : Env :=
  {| apiKey := "KEY";
     rating := G;
     fetch := fun _ _ =>
       FetchResolved
         {| ok := false; status := 503; statusText := "Service Unavailable";
            body := BodyJson None |};
     mathRandom := mathRandom sampleEnv;
     randomUUID := randomUUID sampleEnv |}.

(** The same provider with rating PG-13 when the search finds one usable
    record only. *)
Definition sparseEnv : Env :=
  {| apiKey := "KEY";
     rating := PG13;
     fetch := fun _ _ =>
       FetchResolved
         {| ok := true; status := 200; statusText := "OK";
            body := BodyJson (Some (firstn 2 sampleData)) |};
     mathRandom := mathRandom sampleEnv;
     randomUUID := randomUUID sampleEnv |}.

(** ** Calls that overlap

    [ensurePool] and [loadNextPair] are [async]: each runs up to its first
    [await] that has to wait, and the rest runs when the response is there.
    Other calls may run in between; on mount the two effects of the provider
    start [loadNextPair] twice before either response has come. Here each
    function is given as its two steps; [ensurePool_in_two_steps] and
    [loadNextPair_in_two_steps] show that a step run right after the other
    is the function as defined above. *)

(** What a call of [ensurePool] waits for after its first step: nothing
    (the cached list is reused), a rejection it already holds ([fetchPool]
    threw before sending), or the answer to the request it sent. *)
Inductive Wait :=
| Reused (pool : list GifItem)
| Refused (message : option string)
| Asked (answer : FetchResult).

(** [ensurePool] up to the [await] in [fetchPool]: key, lookup, and on a
    miss the key check and [fetch(url)]. *)
Definition ensurePoolBegin (env : Env) (theme : string) : M Wait :=
  let key := poolKey env theme in
  cached <- cacheGet key ;;
  let send : M Wait :=
    if negb (truthy (apiKey env)) then ret (Refused (Some missingKeyMessage))
    else
      fun w =>
        (Returned (Asked (fetch env (length (requests w)) (searchParams env theme))),
         snd (doFetch env (searchParams env theme) w)) in
  match cached with
  | Some pool => if 2 <=? Z.of_nat (length pool) then ret (Reused pool) else send
  | None => send
  end.

(** [fetchPool] from [if (!res.ok)] on. *)
Definition fetchPoolReceive (env : Env) (res : Response) : M (list GifItem) :=
  if negb (ok res) then throwError (upstreamMessage res)
  else
    match body res with
    | BodyRejected e => fun w => (Threw e, w)
    | BodyJson json =>
        let data := match json with Some d => d | None => [] end in
        items <- mapM (normalizeGif env) data ;;
        let normalized := List.filter (fun g => truthy (displayUrl g)) items in
        if Z.of_nat (length normalized) <? 2
        then throwError notEnoughResultsMessage
        else ret normalized
    end.

(** The rest of [ensurePool]: the response is read and, when [fetchPool]
    returns, the list is stored and returned. *)
Definition ensurePoolEnd (env : Env) (theme : string) (wt : Wait)
  : M (list GifItem) :=
  match wt with
  | Reused pool => ret pool
  | Refused e => fun w => (Threw e, w)
  | Asked (FetchRejected e) => fun w => (Threw e, w)
  | Asked (FetchResolved res) =>
      fresh <- fetchPoolReceive env res ;;
      cacheSet (poolKey env theme) fresh ;;;
      ret fresh
  end.

(** [loadNextPair] up to the [await]: [None] when the call is over already
    (blank theme), else the trimmed theme it read and what it waits for. *)
Definition loadNextPairBegin (env : Env) : M (option (string * Wait)) :=
  dispatch LOAD_PAIR_START ;;;
  state <- getState ;;
  let theme := trim (theme state) in
  if negb (truthy theme)
  then dispatch (LOAD_PAIR_ERROR emptyThemeMessage) ;;; ret None
  else wt <- ensurePoolBegin env theme ;; ret (Some (theme, wt)).

(** The rest of [loadNextPair], still inside its [try]. *)
Definition loadNextPairEnd (env : Env) (bound : nat) (h : string * Wait)
  : M unit :=
  tryCatch
    (pool <- ensurePoolEnd env (fst h) (snd h) ;;
     pair <- pickTwoDistinct env bound pool ;;
     match pair with
     | None => throwError notEnoughPoolMessage
     | Some (leftGif, rightGif) =>
         dispatch (LOAD_PAIR_SUCCESS leftGif rightGif (Z.of_nat (length pool)))
     end)
    (fun err =>
       dispatch (LOAD_PAIR_ERROR
                   (match err with Some m => m | None => "Unknown error" end))).

(** The wait ends in a failure of [fetchPool]. *)
Inductive waitFails : Wait -> Prop :=
| wait_refused e : waitFails (Refused e)
| wait_rejected e : waitFails (Asked (FetchRejected e))
| wait_status res : ok res = false -> waitFails (Asked (FetchResolved res))
| wait_body res e :
    ok res = true -> body res = BodyRejected e ->
    waitFails (Asked (FetchResolved res))
| wait_few res json :
    ok res = true -> body res = BodyJson json -> (usableCount json < 2)%nat ->
    waitFails (Asked (FetchResolved res)).

(** One step of some call of [ensurePool], or any step that leaves the map
    alone, in any order. *)
Inductive ensureStep : World -> World -> Prop :=
| ensure_begins env theme w :
    ensureStep w (snd (ensurePoolBegin env theme w))
| ensure_ends env theme wt w :
    ensureStep w (snd (ensurePoolEnd env theme wt w))
| ensure_idle w w' : poolCache w' = poolCache w -> ensureStep w w'.

(** Worlds whose cache was created empty and has seen steps of
    [ensurePool] calls only, however the calls overlap. *)
Definition cacheInterleaved (w : World) : Prop :=
  exists w0, poolCache w0 = ∅ /\ rtc ensureStep w0 w.

(** One step of the provider: a step of a load, or a dispatch ([setTheme],
    [undo], the reset button, the [VOTE] of [vote]). The rating may change
    between steps. *)
Inductive providerStep : World -> World -> Prop :=
| load_begins env w : providerStep w (snd (loadNextPairBegin env w))
| load_ends env bound h w : providerStep w (snd (loadNextPairEnd env bound h w))
| dispatches a w : providerStep w (snd (dispatch a w)).

(** The search answers the first request with three records and later
    requests with three others. *)
Definition raceEnv : Env :=
  {| apiKey := "KEY";
     rating := PG;
     fetch := fun n _ =>
       FetchResolved
         {| ok := true; status := 200; statusText := "OK";
            body := BodyJson (Some (match n with
                                    | O => firstn 3 sampleData
                                    | S _ => skipn 1 sampleData
                                    end)) |};
     mathRandom := mathRandom sampleEnv;
     randomUUID := randomUUID sampleEnv |}.

(** ** What the components show *)

(** The four things [GifArena] renders, in the order it tests for them. *)
Inductive ArenaView :=
| LoadingNotice
| ErrorNotice (message : string)
| NoPairNotice
| Duel (left right : GifItem).

Definition GifArena (state : GameState) : ArenaView :=
  if isLoading state then LoadingNotice
  else
    match error state with
    | Some (String c m) => ErrorNotice (String c m)
    | _ =>
        match leftGif state, rightGif state with
        | Some l, Some r => Duel l r
        | _, _ => NoPairNotice
        end
    end.

(** [disabled={state.history.length === 0}] of the Undo button. *)
Definition undoDisabled (state : GameState) : bool :=
  Z.of_nat (length (history state)) =? 0.

(** [state.history.slice(0, 8)] of [HistoryPanel]. *)
Definition recentVotes (state : GameState) : list VoteRecord :=
  firstn 8 (history state).

(** The React key of a row of [HistoryPanel], [`${v.ts}-${v.round}`]; both
    numbers are integers below 10^21, which JavaScript prints in plain
    decimal. *)
Definition rowKey (v : VoteRecord) : string :=
  showNumber (ts v) +:+ "-" +:+ showNumber (vr_round v).

Fixpoint hasDash (s : string) : bool :=
  match s with
  | EmptyString => false
  | String c s' => Ascii.eqb c "-" || hasDash s'
  end.

(** [n] presses of the Undo button. *)
Fixpoint undoTimes (n : nat) (now : Z) (s : GameState) : GameState :=
  match n with
  | O => s
  | S m => undoTimes m now (gameReducer now s UNDO_LAST_VOTE)
  end.

Definition isLoadSuccess (a : Action) : bool :=
  match a with LOAD_PAIR_SUCCESS _ _ _ => true | _ => false end.

(** ** The task manager of [src/src/App.tsx]

    A [Date] is its [getTime()], an integer. The handlers run one at a
    time: the [tasks] a handler reads are the [prevTasks] its update is
    applied to, and the mock API calls, which only wait, are not modelled
    beyond the value they return. *)

Module TaskManager.

Inductive Priority := low | medium | high.

Definition Priority_eqb (a b : Priority) : bool :=
  match a, b with
  | low, low | medium, medium | high, high => true
  | _, _ => false
  end.

Record Task := mkTask {
  id : Z;
  title : string;
  description : string;
  completed : bool;
  priority : Priority;
  createdAt : Z
}.

Record NewTaskForm := mkNewTaskForm {
  form_title : string;
  form_description : string;
  form_priority : Priority
}.

Inductive Order := asc | desc.

Inductive StatusFilter := all | completedOnly | pendingOnly.

(** [createTask]: [idNow] is what [Date.now()] answers, [createdNow] the
    time of [new Date()]. *)
Definition createTask (idNow createdNow : Z) (taskData : NewTaskForm) : Task :=
  {| id := idNow;
     title := form_title taskData;
     description := form_description taskData;
     completed := false;
     priority := form_priority taskData;
     createdAt := createdNow |}.

Definition filterTasksByPriority (tasks : list Task) (p : Priority) : list Task :=
  List.filter (fun task => Priority_eqb (priority task) p) tasks.

Definition getCompletedTasks (tasks : list Task) : list Task :=
  List.filter (fun task => completed task) tasks.

Definition getPendingTasksCount (tasks : list Task) : Z :=
  Z.of_nat (length (List.filter (fun task => negb (completed task)) tasks)).

(** The comparator of [sortTasksByDate]. *)
Definition compareByDate (order : Order) (a b : Task) : Z :=
  let comparison := createdAt a - createdAt b in
  match order with asc => comparison | desc => - comparison end.

(** [Array.prototype.sort] is stable: elements the comparator finds equal
    keep their order. With a comparator that orders by a key there is one
    such arrangement ([stable_sort_unique] below); it is computed here by
    insertion, each element going in front of the first one it does not
    exceed. *)
Fixpoint insertSorted (cmp : Task -> Task -> Z) (x : Task) (l : list Task)
  : list Task :=
  match l with
  | [] => [x]
  | y :: l' => if cmp x y <=? 0 then x :: l else y :: insertSorted cmp x l'
  end.

Fixpoint sortWith (cmp : Task -> Task -> Z) (l : list Task) : list Task :=
  match l with
  | [] => []
  | x :: l' => insertSorted cmp x (sortWith cmp l')
  end.

Definition sortTasksByDate (tasks : list Task) (order : Order) : list Task :=
  sortWith (compareByDate order) tasks.

Definition getPriorityColor (p : Priority) : string :=
  match p with
  | low => "#4CAF50"
  | medium => "#FF9800"
  | high => "#F44336"
  end.

(** The [useState] cells of [App]. *)
Record AppState := mkAppState {
  tasks : list Task;
  loading : bool;
  error : option string;
  filter : StatusFilter;
  priorityFilter : option Priority;
  formData : NewTaskForm
}.

Definition emptyForm : NewTaskForm :=
  {| form_title := ""; form_description := ""; form_priority := medium |}.

(** [handleCreateTask]; the second component is the text of the [alert], if
    one was shown. The mock [createTask] never rejects. *)
Definition handleCreateTask (idNow createdNow : Z) (st : AppState)
  : AppState * option string :=
  if negb (truthy (trim (form_title (formData st))))
  then (st, Some "Please enter a task title")
  else
    let response := createTask idNow createdNow (formData st) in
    ({| tasks := tasks st ++ [response];
        loading := loading st;
        error := error st;
        filter := filter st;
        priorityFilter := priorityFilter st;
        formData := emptyForm |}, None).

Definition toggled (t : Task) : Task :=
  {| id := id t; title := title t; description := description t;
     completed := negb (completed t);
     priority := priority t; createdAt := createdAt t |}.

(** [handleToggleTask]; the mock [updateTaskStatus] never rejects. *)
Definition handleToggleTask (taskId : Z) (st : AppState) : AppState :=
  match List.find (fun t => id t =? taskId) (tasks st) with
  | None => st
  | Some _ =>
      {| tasks := map (fun t => if id t =? taskId then toggled t else t) (tasks st);
         loading := loading st;
         error := error st;
         filter := filter st;
         priorityFilter := priorityFilter st;
         formData := formData st |}
  end.

Definition handleDeleteTask (taskId : Z) (st : AppState) : AppState :=
  {| tasks := List.filter (fun t => negb (id t =? taskId)) (tasks st);
     loading := loading st;
     error := error st;
     filter := filter st;
     priorityFilter := priorityFilter st;
     formData := formData st |}.

(** [priorityFilter] is [None] for ["all"]. *)
Definition getFilteredTasks (st : AppState) : list Task :=
  let filtered := tasks st in
  let filtered :=
    match filter st with
    | completedOnly => getCompletedTasks filtered
    | pendingOnly => List.filter (fun task => negb (completed task)) filtered
    | all => filtered
    end in
  let filtered :=
    match priorityFilter st with
    | Some p => filterTasksByPriority filtered p
    | None => filtered
    end in
  sortTasksByDate filtered desc.

(** Whether a task passes the two filters. *)
Definition passes (st : AppState) (t : Task) : bool :=
  match filter st with
  | completedOnly => completed t
  | pendingOnly => negb (completed t)
  | all => true
  end &&
  match priorityFilter st with
  | Some p => Priority_eqb (priority t) p
  | None => true
  end.

(** Sample tasks: the second and third were created in the same
    millisecond and share an id. *)
Definition sampleTasks : list Task :=
  [ mkTask 1 "Learn" "" false high 10;
    mkTask 7 "Build" "" true medium 20;
    mkTask 7 "Practice" "" false low 20 ].

Definition sampleApp : AppState :=
  {| tasks := sampleTasks; loading := false; error := None;
     filter := all; priorityFilter := None;
     formData := mkNewTaskForm " Write " "notes" low |}.

End TaskManager.

(** * Properties *)

Example trim_example : trim "  Cats and dogs   " = "Cats and dogs".
Proof. reflexivity. Qed.

Example lower_example : toLowerCase "CaTs|Z" = "cats|z".
Proof. reflexivity. Qed.

(** ** Trimming *)

Lemma trimStart_split s :
  exists pre, s = pre +:+ trimStart s /\ allWhiteSpace pre = true.
Proof.
  induction s as [| c s (pre & Hs & Hpre)]; simpl.
  - now exists "".
  - destruct (isWhiteSpace c) eqn:Ec.
    + exists (String c pre). split.
      * change (String c s = String c (pre +:+ trimStart s)). now f_equal.
      * simpl. now rewrite Ec.
    + now exists "".
Qed.

Lemma trimStart_first s c :
  firstChar (trimStart s) = Some c -> isWhiteSpace c = false.
Proof.
  induction s as [| a s IH]; simpl; [discriminate |].
  destruct (isWhiteSpace a) eqn:Ea; [exact IH |].
  simpl. now intros [= <-].
Qed.

Lemma trimEnd_split s :
  exists post, s = trimEnd s +:+ post /\ allWhiteSpace post = true.
Proof.
  induction s as [| c s (post & Hs & Hpost)]; simpl.
  - now exists "".
  - destruct (trimEnd s) as [| a t] eqn:Et.
    + change ("" +:+ post) with post in Hs. subst post.
      destruct (isWhiteSpace c) eqn:Ec.
      * exists (String c s). split; [reflexivity |]. simpl. now rewrite Ec.
      * exists s. split; [reflexivity | exact Hpost].
    + exists post. split; [| exact Hpost].
      change (String c s = String c (String a t +:+ post)). now f_equal.
Qed.

Lemma trimEnd_last s c :
  lastChar (trimEnd s) = Some c -> isWhiteSpace c = false.
Proof.
  induction s as [| a s IH]; simpl; [discriminate |].
  destruct (trimEnd s) as [| b t] eqn:Et.
  - destruct (isWhiteSpace a) eqn:Ea; simpl; [discriminate |].
    now intros [= <-].
  - exact IH.
Qed.

Lemma trimEnd_first s c :
  firstChar s = Some c -> isWhiteSpace c = false ->
  firstChar (trimEnd s) = Some c.
Proof.
  destruct s as [| a s]; simpl; [discriminate |]. intros [= ->] Hc.
  destruct (trimEnd s); [now rewrite Hc | reflexivity].
Qed.

(** [trim] cuts a run of white space off each end and nothing more: what is
    left neither starts nor ends with white space. *)
Lemma trim_spec s :
  (exists pre post,
     s = pre +:+ trim s +:+ post /\
     allWhiteSpace pre = true /\ allWhiteSpace post = true) /\
  (forall c, firstChar (trim s) = Some c -> isWhiteSpace c = false) /\
  (forall c, lastChar (trim s) = Some c -> isWhiteSpace c = false).
Proof.
  unfold trim. split; [| split].
  - destruct (trimStart_split s) as (pre & Hs & Hpre).
    destruct (trimEnd_split (trimStart s)) as (post & Ht & Hpost).
    exists pre, post. split; [| auto]. now rewrite <- Ht, <- Hs.
  - intros c Hc. destruct (firstChar (trimStart s)) as [a |] eqn:Ea.
    + pose proof (trimStart_first s a Ea) as Hw.
      rewrite (trimEnd_first _ a Ea Hw) in Hc. now inversion Hc; subst.
    + destruct (trimStart s); [discriminate | discriminate].
  - apply trimEnd_last.
Qed.

(** ** The reducer, one action at a time *)

Lemma Side_eqb_eq a b : Side_eqb a b = true <-> a = b.
Proof. destruct a, b; simpl; split; congruence. Qed.

Lemma VoteType_eqb_eq a b : VoteType_eqb a b = true <-> a = b.
Proof. destruct a, b; simpl; split; congruence. Qed.

Lemma getSide_setSide_same t sd v : getSide (setSide t sd v) sd = v.
Proof. destruct sd; reflexivity. Qed.

Lemma getSide_setSide_other t sd sd' v :
  sd' <> sd -> getSide (setSide t sd v) sd' = getSide t sd'.
Proof. destruct sd, sd'; simpl; congruence. Qed.

Lemma setSide_getSide t sd : setSide t sd (getSide t sd) = t.
Proof. destruct t, sd; reflexivity. Qed.

Lemma setSide_setSide t sd v v' : setSide (setSide t sd v) sd v' = setSide t sd v'.
Proof. destruct sd; reflexivity. Qed.

Lemma cell_bump_same sc vt sd v : cell (bump sc vt sd v) vt sd = v.
Proof. destruct vt; simpl; apply getSide_setSide_same. Qed.

Lemma cell_bump_other sc vt sd v vt' sd' :
  (vt', sd') <> (vt, sd) -> cell (bump sc vt sd v) vt' sd' = cell sc vt' sd'.
Proof.
  intros Hne. destruct vt, vt'; simpl; try reflexivity;
    apply getSide_setSide_other; congruence.
Qed.

Lemma bump_bump sc vt sd v v' : bump (bump sc vt sd v) vt sd v' = bump sc vt sd v'.
Proof. destruct vt; simpl; now rewrite setSide_setSide. Qed.

Lemma bump_cell sc vt sd : bump sc vt sd (cell sc vt sd) = sc.
Proof. destruct sc, vt; simpl; now rewrite setSide_getSide. Qed.

Lemma reduce_vote now s vt sd l r :
  leftGif s = Some l -> rightGif s = Some r ->
  gameReducer now s (VOTE vt sd) =
    {| theme := theme s;
       round := round s + 1;
       leftGif := leftGif s;
       rightGif := rightGif s;
       poolCount := poolCount s;
       score := bump (score s) vt sd (cell (score s) vt sd + 1);
       history :=
         {| vr_round := round s; vr_theme := theme s; voteType := vt;
            winnerSide := sd; leftId := id l; rightId := id r; ts := now |}
         :: history s;
       isLoading := isLoading s;
       error := error s |}.
Proof. intros Hl Hr. simpl. rewrite Hl, Hr. destruct vt; reflexivity. Qed.

Lemma reduce_undo now s last rest :
  history s = last :: rest ->
  gameReducer now s UNDO_LAST_VOTE =
    {| theme := theme s;
       round := Z.max 1 (round s - 1);
       leftGif := leftGif s;
       rightGif := rightGif s;
       poolCount := poolCount s;
       score := bump (score s) (voteType last) (winnerSide last)
                  (Z.max 0 (cell (score s) (voteType last) (winnerSide last) - 1));
       history := rest;
       isLoading := isLoading s;
       error := error s |}.
Proof. intros Hh. simpl. rewrite Hh. destruct (voteType last); reflexivity. Qed.

(** C7. [VOTE] leaves a state without a full pair unchanged. On a state with
    both sides loaded it adds 1 to the cell [(voteType, winnerSide)] and to
    no other cell, puts one record with the current round, theme and the two
    ids (and the clock value) in front of the history, adds 1 to the round,
    and keeps every other field. *)
Theorem vote_effect now s vt sd :
  (leftGif s = None \/ rightGif s = None ->
   gameReducer now s (VOTE vt sd) = s) /\
  (forall l r, leftGif s = Some l -> rightGif s = Some r ->
   let s' := gameReducer now s (VOTE vt sd) in
   cell (score s') vt sd = cell (score s) vt sd + 1 /\
   (forall vt' sd', (vt', sd') <> (vt, sd) ->
      cell (score s') vt' sd' = cell (score s) vt' sd') /\
   history s' =
     {| vr_round := round s; vr_theme := theme s; voteType := vt;
        winnerSide := sd; leftId := id l; rightId := id r; ts := now |}
     :: history s /\
   round s' = round s + 1 /\
   theme s' = theme s /\ leftGif s' = leftGif s /\ rightGif s' = rightGif s /\
   poolCount s' = poolCount s /\ isLoading s' = isLoading s /\
   error s' = error s).
Proof.
  split.
  - intros [H | H]; simpl; rewrite H; [reflexivity |].
    now destruct (leftGif s).
  - intros l r Hl Hr s'. subst s'. rewrite (reduce_vote now s vt sd l r Hl Hr).
    cbn [score history round theme leftGif rightGif poolCount isLoading error].
    repeat split.
    + apply cell_bump_same.
    + intros vt' sd' Hne. now apply cell_bump_other.
Qed.

Lemma vote_effect_witness :
  let s := gameReducer 0 initialState
             (LOAD_PAIR_SUCCESS (mkGifItem "a" "A" "u") (mkGifItem "b" "B" "v") 2) in
  round (gameReducer 5 s (VOTE Funny Right)) = 2 /\
  gameReducer 5 initialState (VOTE Funny Right) = initialState.
Proof.
  split.
  - pose proof (proj2 (vote_effect 5
      (gameReducer 0 initialState
         (LOAD_PAIR_SUCCESS (mkGifItem "a" "A" "u") (mkGifItem "b" "B" "v") 2))
      Funny Right) _ _ eq_refl eq_refl) as H.
    cbv zeta in H. apply H.
  - apply (proj1 (vote_effect 5 initialState Funny Right)). left. reflexivity.
Defined.

(** C8. [UNDO_LAST_VOTE] on an empty history returns the state as it is, and
    [undo()] then returns normally with the world as it was: nothing is
    thrown. On a history
    [last :: rest] it leaves [rest], lowers the cell of [last] by 1 but not
    below 0, lowers the round by 1 but not below 1, and keeps the other
    cells and fields. *)
Theorem undo_effect now s :
  (history s = [] -> gameReducer now s UNDO_LAST_VOTE = s) /\
  (forall w, history (game w) = [] -> undo w = (Returned tt, w)) /\
  (forall last rest, history s = last :: rest ->
   let s' := gameReducer now s UNDO_LAST_VOTE in
   history s' = rest /\
   cell (score s') (voteType last) (winnerSide last) =
     Z.max 0 (cell (score s) (voteType last) (winnerSide last) - 1) /\
   (forall vt sd, (vt, sd) <> (voteType last, winnerSide last) ->
      cell (score s') vt sd = cell (score s) vt sd) /\
   round s' = Z.max 1 (round s - 1) /\
   theme s' = theme s /\ leftGif s' = leftGif s /\ rightGif s' = rightGif s /\
   poolCount s' = poolCount s /\ isLoading s' = isLoading s /\
   error s' = error s).
Proof.
  split; [| split].
  - intros H. simpl. now rewrite H.
  - intros w H. unfold undo, dispatch. simpl. rewrite H. now destruct w.
  - intros last rest Hh s'. subst s'. rewrite (reduce_undo now s last rest Hh).
    cbn [score history round theme leftGif rightGif poolCount isLoading error].
    repeat split.
    + apply cell_bump_same.
    + intros vt sd Hne. now apply cell_bump_other.
Qed.

Lemma undo_effect_witness :
  gameReducer 9 initialState UNDO_LAST_VOTE = initialState /\
  let s := gameReducer 5
             (gameReducer 0 initialState
                (LOAD_PAIR_SUCCESS (mkGifItem "a" "A" "u") (mkGifItem "b" "B" "v") 2))
             (VOTE Like Left) in
  history (gameReducer 9 s UNDO_LAST_VOTE) = [].
Proof.
  split.
  - apply (proj1 (undo_effect 9 initialState)). reflexivity.
  - pose proof (proj2 (proj2 (undo_effect 9
      (gameReducer 5
         (gameReducer 0 initialState
            (LOAD_PAIR_SUCCESS (mkGifItem "a" "A" "u") (mkGifItem "b" "B" "v") 2))
         (VOTE Like Left)))) _ _ eq_refl) as H.
    cbv zeta in H. apply H.
Defined.

(** [undo()] itself: it always returns, and changes nothing but the reducer
    state. *)
Lemma undo_returns w :
  undo w =
    (Returned tt,
     {| game := gameReducer (clock w) (game w) UNDO_LAST_VOTE;
        poolCache := poolCache w; requests := requests w;
        randomsDrawn := randomsDrawn w; uuidsDrawn := uuidsDrawn w;
        clock := clock w |}).
Proof. reflexivity. Qed.

(** ** Vote, then undo *)

(** Outside the data model the floors show. On a record of the declared
    type whose round is 0, a value no run produces ([round_tracks_history]
    below), [VOTE] takes the round to 1 and the floor of [UNDO_LAST_VOTE]
    keeps it there. *)
Lemma vote_undo_round_zero :
  leftGif roundZeroState <> None /\ rightGif roundZeroState <> None /\
  ~ (let s' := gameReducer 2 (gameReducer 1 roundZeroState (VOTE Like Left))
                 UNDO_LAST_VOTE in
     score s' = score roundZeroState /\
     round s' = round roundZeroState /\
     history s' = history roundZeroState).
Proof.
  split; [discriminate |]. split; [discriminate |].
  cbv zeta. intros (_ & Hround & _). vm_compute in Hround. discriminate.
Qed.

(** What [VOTE] followed by [UNDO_LAST_VOTE] gives on any state with a
    loaded pair: the state again, except that the floors apply to the round
    and to the voted cell. *)
Lemma vote_undo_any now now' s vt sd l r :
  leftGif s = Some l -> rightGif s = Some r ->
  gameReducer now' (gameReducer now s (VOTE vt sd)) UNDO_LAST_VOTE =
    {| theme := theme s;
       round := Z.max 1 (round s);
       leftGif := leftGif s;
       rightGif := rightGif s;
       poolCount := poolCount s;
       score := bump (score s) vt sd (Z.max 0 (cell (score s) vt sd));
       history := history s;
       isLoading := isLoading s;
       error := error s |}.
Proof.
  intros Hl Hr. rewrite (reduce_vote now s vt sd l r Hl Hr).
  erewrite reduce_undo by reflexivity.
  cbn [score history round theme leftGif rightGif poolCount isLoading error
       voteType winnerSide].
  rewrite cell_bump_same, bump_bump.
  replace (round s + 1 - 1) with (round s) by lia.
  replace (cell (score s) vt sd + 1 - 1) with (cell (score s) vt sd) by lia.
  reflexivity.
Qed.

(** With a round of at least 1 and no negative cell the floors are inert
    and the state comes back whole. *)
Lemma vote_undo_restores now now' s vt sd :
  leftGif s <> None -> rightGif s <> None -> wellFormed s ->
  gameReducer now' (gameReducer now s (VOTE vt sd)) UNDO_LAST_VOTE = s.
Proof.
  intros Hl Hr [Hround Hcells].
  destruct (leftGif s) as [l |] eqn:El; [| congruence].
  destruct (rightGif s) as [r |] eqn:Er; [| congruence].
  rewrite (vote_undo_any now now' s vt sd l r El Er).
  rewrite (Z.max_r 1 (round s)) by lia.
  rewrite (Z.max_r 0 (cell (score s) vt sd)) by apply Hcells.
  rewrite bump_cell. clear. now destruct s.
Qed.

(** ** Invariants of a run *)

Lemma countVotes_cons r h vt sd :
  countVotes (r :: h) vt sd =
    countVotes h vt sd + (if matches vt sd r then 1 else 0).
Proof.
  unfold countVotes. simpl. destruct (matches vt sd r); simpl length; lia.
Qed.

Lemma countVotes_nonneg h vt sd : 0 <= countVotes h vt sd.
Proof. unfold countVotes. lia. Qed.

Lemma matches_true vt sd r :
  matches vt sd r = true <-> (vt, sd) = (voteType r, winnerSide r).
Proof.
  unfold matches. rewrite andb_true_iff, VoteType_eqb_eq, Side_eqb_eq.
  split; [intros [-> ->]; reflexivity | intros E; inversion E; auto].
Qed.

Lemma matches_self r : matches (voteType r) (winnerSide r) r = true.
Proof. now apply matches_true. Qed.

Lemma matches_other r vt sd :
  (vt, sd) <> (voteType r, winnerSide r) -> matches vt sd r = false.
Proof.
  intros Hne. destruct (matches vt sd r) eqn:E; [| reflexivity].
  now apply matches_true in E.
Qed.

Lemma pair_eq_dec (vt vt' : VoteType) (sd sd' : Side) :
  (vt', sd') = (vt, sd) \/ (vt', sd') <> (vt, sd).
Proof. destruct vt, vt', sd, sd'; (now left) || (right; congruence). Qed.

Lemma tallied_zero th n l r p b e :
  tallied {| theme := th; round := n; leftGif := l; rightGif := r;
             poolCount := p; score := zeroScore; history := [];
             isLoading := b; error := e |}.
Proof. intros [] []; reflexivity. Qed.

Lemma tallied_step now s a : tallied s -> tallied (gameReducer now s a).
Proof.
  intros H. destruct a as [th | | l0 r0 n | e | avt asd | |];
    try exact H; try apply tallied_zero.
  - (* VOTE *)
    destruct (leftGif s) as [l |] eqn:El; [| simpl; now rewrite El].
    destruct (rightGif s) as [r |] eqn:Er; [| simpl; now rewrite El, Er].
    rewrite (reduce_vote now s _ _ l r El Er). intros vt sd.
    cbn [score history]. rewrite countVotes_cons.
    destruct (pair_eq_dec avt vt asd sd) as [E | Hne].
    + inversion E; subst. rewrite cell_bump_same, H.
      match goal with
      | |- context [matches avt asd ?rec] =>
          rewrite (proj2 (matches_true avt asd rec) eq_refl)
      end. reflexivity.
    + rewrite cell_bump_other by assumption.
      rewrite matches_other by exact Hne.
      rewrite H. lia.
  - (* UNDO_LAST_VOTE *)
    destruct (history s) as [| last rest] eqn:Eh; [simpl; now rewrite Eh |].
    rewrite (reduce_undo now s last rest Eh). intros vt sd.
    cbn [score history].
    pose proof (H vt sd) as Hc. rewrite Eh, countVotes_cons in Hc.
    destruct (pair_eq_dec (voteType last) vt (winnerSide last) sd) as [E | Hne].
    + inversion E; subst. rewrite cell_bump_same.
      rewrite matches_self in Hc.
      pose proof (countVotes_nonneg rest (voteType last) (winnerSide last)). lia.
    + rewrite cell_bump_other by assumption.
      rewrite matches_other in Hc by assumption. lia.
Qed.

Lemma numbered_step now s a : numbered s -> numbered (gameReducer now s a).
Proof.
  intros [Hr Hm]. destruct a as [th | | l0 r0 n | e | avt asd | |];
    try (split; [exact Hr | exact Hm]);
    try (split; reflexivity).
  - (* VOTE *)
    destruct (leftGif s) as [l |] eqn:El; [| simpl; rewrite El; now split].
    destruct (rightGif s) as [r |] eqn:Er; [| simpl; rewrite El, Er; now split].
    rewrite (reduce_vote now s _ _ l r El Er). unfold numbered.
    cbn [round history map vr_round length countdown]. split; [lia |].
    rewrite Hm. f_equal. lia.
  - (* UNDO_LAST_VOTE *)
    destruct (history s) as [| last rest] eqn:Eh.
    + simpl. rewrite Eh. unfold numbered. now rewrite Eh.
    + rewrite (reduce_undo now s last rest Eh). unfold numbered.
      cbn [round history map length countdown] in *. split; [lia |].
      now inversion Hm.
Qed.

Lemma run_cons s da tr :
  run s (da :: tr) = run (gameReducer (fst da) s (snd da)) tr.
Proof. reflexivity. Qed.

Lemma run_invariant (P : GameState -> Prop) :
  (forall now s a, P s -> P (gameReducer now s a)) ->
  forall tr s, P s -> P (run s tr).
Proof.
  intros Hstep tr. induction tr as [| da tr IH]; intros s Hs; [exact Hs |].
  rewrite run_cons. apply IH, Hstep, Hs.
Qed.

Lemma freshRun_tallied s : freshRun s -> tallied s.
Proof. intros []; apply tallied_zero. Qed.

Lemma freshRun_numbered s : freshRun s -> numbered s.
Proof. intros []; split; reflexivity. Qed.

Lemma numbered_tallied_wellFormed s : numbered s -> tallied s -> wellFormed s.
Proof.
  intros [Hr _] Ht. split; [lia |]. intros vt sd. rewrite Ht.
  apply countVotes_nonneg.
Qed.

(** C1. Along any sequence of actions, started from the initial state or
    from a state that [SET_THEME] or [RESET_RUN] produced, every score cell
    equals the number of records of the history with that vote type and
    that side; so every cell is a non-negative integer. *)
Theorem score_counts_history s0 tr vt sd :
  freshRun s0 ->
  cell (score (run s0 tr)) vt sd = countVotes (history (run s0 tr)) vt sd /\
  0 <= cell (score (run s0 tr)) vt sd.
Proof.
  intros Hfresh.
  assert (H : tallied (run s0 tr)).
  { apply (run_invariant tallied tallied_step), freshRun_tallied, Hfresh. }
  split; [apply H |]. rewrite H. apply countVotes_nonneg.
Qed.

(** C10. In every state reached from the initial state the round is the
    length of the history plus 1, hence at least 1; the rounds of the
    records, newest first, are [length; ...; 2; 1]; and when there is a vote
    to undo, neither floor of [UNDO_LAST_VOTE] is in force: the round minus
    1 is at least 1 and the voted cell minus 1 is at least 0. *)
Theorem round_tracks_history tr :
  let s := run initialState tr in
  round s = Z.of_nat (length (history s)) + 1 /\
  1 <= round s /\
  map vr_round (history s) = countdown (length (history s)) /\
  (forall last rest, history s = last :: rest ->
     Z.max 1 (round s - 1) = round s - 1 /\
     Z.max 0 (cell (score s) (voteType last) (winnerSide last) - 1) =
       cell (score s) (voteType last) (winnerSide last) - 1).
Proof.
  intros s.
  assert (Hn : numbered s).
  { apply (run_invariant numbered numbered_step), freshRun_numbered, fresh_initial. }
  assert (Ht : tallied s).
  { apply (run_invariant tallied tallied_step), freshRun_tallied, fresh_initial. }
  destruct Hn as [Hr Hm].
  split; [exact Hr |]. split; [lia |]. split; [exact Hm |].
  intros lst rest Hh. split.
  - rewrite Hr, Hh. simpl length. lia.
  - rewrite Ht, Hh, countVotes_cons, matches_self.
    pose proof (countVotes_nonneg rest (voteType lst) (winnerSide lst)). lia.
Qed.

Example scenario_three_votes_one_undo :
  let s := run initialState scenarioRun in
  left (like (score s)) = 2 /\ length (history s) = 2%nat /\ round s = 3.
Proof. repeat split. Qed.

Lemma score_counts_history_witness :
  freshRun initialState /\
  cell (score (run initialState scenarioRun)) Like Left =
    countVotes (history (run initialState scenarioRun)) Like Left.
Proof.
  split; [apply fresh_initial |].
  apply (score_counts_history initialState scenarioRun Like Left fresh_initial).
Defined.

Lemma round_tracks_history_witness :
  round (run initialState scenarioRun) = 3 /\
  Z.max 1 (round (run initialState scenarioRun) - 1) = 2.
Proof.
  pose proof (round_tracks_history scenarioRun) as H. cbv zeta in H.
  destruct H as (Hr & _ & _ & Hfloor). split; [exact Hr |].
  destruct (Hfloor _ _ eq_refl) as [Hmax _]. exact Hmax.
Defined.

(** Every state of a run is well formed, so on the states the program can be
    in a vote followed by an undo changes nothing. *)
Lemma run_wellFormed s0 tr : freshRun s0 -> wellFormed (run s0 tr).
Proof.
  intros Hfresh. apply numbered_tallied_wellFormed.
  - apply (run_invariant numbered numbered_step), freshRun_numbered, Hfresh.
  - apply (run_invariant tallied tallied_step), freshRun_tallied, Hfresh.
Qed.

Lemma vote_undo_reachable s0 tr now now' vt sd :
  freshRun s0 ->
  leftGif (run s0 tr) <> None -> rightGif (run s0 tr) <> None ->
  gameReducer now' (gameReducer now (run s0 tr) (VOTE vt sd)) UNDO_LAST_VOTE
    = run s0 tr.
Proof.
  intros Hfresh Hl Hr. apply vote_undo_restores; try assumption.
  now apply run_wellFormed.
Qed.

(** C2. On every state the program can be in (any state of a run from the
    initial state or from a reset) with both sides loaded, [VOTE] for any
    vote type and side followed by [UNDO_LAST_VOTE] restores the four score
    cells, the round and the history: the state is the one before the vote,
    field by field. The same holds of any state that meets the invariants
    of the data model, a round of at least 1 and no negative cell. *)
Theorem vote_then_undo now now' vt sd :
  (forall s0 tr, freshRun s0 ->
     let s := run s0 tr in
     leftGif s <> None -> rightGif s <> None ->
     let s' := gameReducer now' (gameReducer now s (VOTE vt sd)) UNDO_LAST_VOTE in
     (forall vt' sd', cell (score s') vt' sd' = cell (score s) vt' sd') /\
     score s' = score s /\ round s' = round s /\ history s' = history s /\
     s' = s) /\
  (forall s, wellFormed s -> leftGif s <> None -> rightGif s <> None ->
     let s' := gameReducer now' (gameReducer now s (VOTE vt sd)) UNDO_LAST_VOTE in
     (forall vt' sd', cell (score s') vt' sd' = cell (score s) vt' sd') /\
     score s' = score s /\ round s' = round s /\ history s' = history s /\
     s' = s).
Proof.
  assert (H : forall s, wellFormed s -> leftGif s <> None -> rightGif s <> None ->
    let s' := gameReducer now' (gameReducer now s (VOTE vt sd)) UNDO_LAST_VOTE in
    (forall vt' sd', cell (score s') vt' sd' = cell (score s) vt' sd') /\
    score s' = score s /\ round s' = round s /\ history s' = history s /\
    s' = s).
  { intros s Hwf Hl Hr s'.
    assert (E : s' = s) by exact (vote_undo_restores now now' s vt sd Hl Hr Hwf).
    rewrite E. auto. }
  split; [| exact H].
  intros s0 tr Hfresh s Hl Hr. apply H; try assumption.
  now apply run_wellFormed.
Qed.

Lemma vote_then_undo_witness :
  let s := run initialState (firstn 3 scenarioRun) in
  gameReducer 8 (gameReducer 7 s (VOTE Funny Left)) UNDO_LAST_VOTE = s /\
  gameReducer 8 (gameReducer 7 (game boardWorld) (VOTE Like Right)) UNDO_LAST_VOTE
    = game boardWorld.
Proof.
  cbv zeta. split.
  - refine (proj2 (proj2 (proj2 (proj2
      (proj1 (vote_then_undo 7 8 Funny Left) initialState
         (firstn 3 scenarioRun) fresh_initial _ _))))).
    + discriminate.
    + discriminate.
  - refine (proj2 (proj2 (proj2 (proj2
      (proj2 (vote_then_undo 7 8 Like Right) (game boardWorld) _ _ _))))).
    + split; [vm_compute; discriminate |].
      intros [] []; vm_compute; discriminate.
    + vm_compute. discriminate.
    + vm_compute. discriminate.
Defined.

(** ** The random stream *)

Lemma random_run env w :
  random env w =
    (Returned (mathRandom env (randomsDrawn w)),
     {| game := game w; poolCache := poolCache w; requests := requests w;
        randomsDrawn := S (randomsDrawn w); uuidsDrawn := uuidsDrawn w;
        clock := clock w |}).
Proof. reflexivity. Qed.

(** ** Pairing *)

Lemma Qfloor_unit_scale (r : Q) (n : Z) :
  (0 <= r)%Q -> (r < 1)%Q -> 0 < n -> 0 <= Qfloor (r * inject_Z n) < n.
Proof.
  intros H0 H1 Hn.
  assert (Hq : (0 < inject_Z n)%Q).
  { change 0%Q with (inject_Z 0). now rewrite <- Zlt_Qlt. }
  split.
  - change 0 with (Qfloor (inject_Z 0)) at 1. apply Qfloor_resp_le.
    change (inject_Z 0) with 0%Q. apply Qmult_le_0_compat; [exact H0 |].
    now apply Qlt_le_weak.
  - rewrite Zlt_Qlt. apply Qle_lt_trans with (r * inject_Z n)%Q.
    + apply Qfloor_le.
    + rewrite <- (Qmult_1_l (inject_Z n)) at 2.
      apply Qmult_lt_compat_r; assumption.
Qed.

Lemma randomInt_run env n w :
  randomInt env 0 n w =
    (Returned (Qfloor (mathRandom env (randomsDrawn w) * inject_Z (n - 0))%Q + 0),
     snd (random env w)).
Proof. reflexivity. Qed.

Lemma randomInt_range env n w :
  randomInUnit env -> 0 < n ->
  exists v, fst (randomInt env 0 n w) = Returned v /\ 0 <= v < n.
Proof.
  intros Hu Hn. rewrite randomInt_run. eexists. split; [reflexivity |].
  destruct (Hu (randomsDrawn w)) as [H0 H1].
  pose proof (Qfloor_unit_scale _ (n - 0) H0 H1 ltac:(lia)). lia.
Qed.

Lemma bind_run {A B} (m : M A) (k : A -> M B) w a w1 :
  m w = (Returned a, w1) -> bind m k w = k a w1.
Proof. intros H. unfold bind. now rewrite H. Qed.

Lemma bind_outcome {A B} (m : M A) (k : A -> M B) w :
  (exists a w1, m w = (Returned a, w1) /\ bind m k w = k a w1) \/
  (exists e w1, m w = (Threw e, w1) /\ bind m k w = (Threw e, w1)) \/
  (exists w1, m w = (Pending, w1) /\ bind m k w = (Pending, w1)).
Proof.
  unfold bind. destruct (m w) as [[a | e |] w1]; eauto 6.
Qed.

Lemma bind_returned {A B} (m : M A) (k : A -> M B) w b w2 :
  bind m k w = (Returned b, w2) ->
  exists a w1, m w = (Returned a, w1) /\ k a w1 = (Returned b, w2).
Proof.
  unfold bind. destruct (m w) as [[a | e |] w1]; intros H;
    try discriminate. eauto.
Qed.

Lemma bind_threw {A B} (m : M A) (k : A -> M B) w e w2 :
  bind m k w = (Threw e, w2) ->
  m w = (Threw e, w2) \/
  exists a w1, m w = (Returned a, w1) /\ k a w1 = (Threw e, w2).
Proof.
  unfold bind. destruct (m w) as [[a | e' |] w1]; intros H;
    try discriminate; [right; eauto | left; inversion H; reflexivity].
Qed.

Lemma randomInt_returned env n w v w' :
  randomInUnit env -> 0 < n ->
  randomInt env 0 n w = (Returned v, w') ->
  0 <= v < n /\ w' = snd (random env w).
Proof.
  intros Hu Hn H. destruct (randomInt_range env n w Hu Hn) as (v' & Hv & Hr).
  rewrite H in Hv. simpl in Hv. inversion Hv; subst v'.
  split; [exact Hr |].
  rewrite randomInt_run in H. now inversion H.
Qed.

Lemma redraw_returned env n i bound :
  randomInUnit env -> 0 < n ->
  forall j w j' w',
    0 <= j < n ->
    redraw env n i bound j w = (Returned j', w') ->
    j' <> i /\ 0 <= j' < n.
Proof.
  intros Hu Hn. induction bound as [| bound IH]; intros j w j' w' Hj H; simpl in H.
  - destruct (j =? i) eqn:E; [discriminate |].
    inversion H; subst. apply Z.eqb_neq in E. auto.
  - destruct (j =? i) eqn:E.
    + apply bind_returned in H. destruct H as (j1 & w1 & H1 & H2).
      apply (randomInt_returned env n w j1 w1 Hu Hn) in H1.
      apply (IH j1 w1 j' w'); tauto.
    + inversion H; subst. apply Z.eqb_neq in E. auto.
Qed.


Lemma readAt_lookup {T} (arr : list T) d i :
  0 <= i < Z.of_nat (length arr) ->
  arr !! Z.to_nat i = Some (readAt arr d i).
Proof.
  intros Hi. unfold readAt. destruct (i <? 0) eqn:E; [lia |].
  destruct (lookup_lt_is_Some_2 arr (Z.to_nat i)) as [x Hx]; [lia |].
  rewrite Hx. f_equal. symmetry. now apply nth_lookup_Some.
Qed.

(** C5. [pickTwoDistinct] returns [null] on a list of length 0 or 1, drawing
    nothing. On a list of length at least 2, with [Math.random()] in
    [0, 1), a returned pair consists of the elements at two different
    indices of the list. *)
Theorem pickTwoDistinct_distinct {T} env bound (arr : list T) w :
  ((length arr < 2)%nat ->
   pickTwoDistinct env bound arr w = (Returned None, w)) /\
  (randomInUnit env -> (2 <= length arr)%nat ->
   forall x y w', pickTwoDistinct env bound arr w = (Returned (Some (x, y)), w') ->
   exists i j : nat, i <> j /\ arr !! i = Some x /\ arr !! j = Some y).
Proof.
  split.
  - intros Hlen. destruct arr as [| a [| b rest]]; simpl in Hlen;
      [reflexivity | reflexivity | lia].
  - intros Hu Hlen x y w' H.
    destruct arr as [| d [| b rest]]; simpl in Hlen; try lia.
    unfold pickTwoDistinct in H.
    set (arr := d :: b :: rest) in *.
    assert (Hn : 0 < Z.of_nat (length arr)) by (simpl; lia).
    apply bind_returned in H. destruct H as (i & w1 & Hi & H).
    apply bind_returned in H. destruct H as (j0 & w2 & Hj0 & H).
    apply bind_returned in H. destruct H as (j & w3 & Hj & H).
    apply (randomInt_returned env _ _ _ _ Hu Hn) in Hi. destruct Hi as [Hi _].
    apply (randomInt_returned env _ _ _ _ Hu Hn) in Hj0. destruct Hj0 as [Hj0 _].
    apply (redraw_returned env _ i bound Hu Hn _ _ _ _ Hj0) in Hj.
    destruct Hj as [Hne Hj].
    inversion H; subst x y.
    exists (Z.to_nat i), (Z.to_nat j). split; [lia |].
    split; apply readAt_lookup; assumption.
Qed.

(** With enough redraws allowed, the loop ends as soon as the stream offers
    an index other than [i]. *)
Lemma redraw_settles env n i :
  forall m bound j w,
    (m < bound)%nat ->
    drawIndex env n (randomsDrawn w + m) <> i ->
    exists j' w', redraw env n i bound j w = (Returned j', w').
Proof.
  induction m as [| m IH]; intros bound j w Hb Hd;
    (destruct bound as [| bound]; [lia |]); simpl;
    (destruct (j =? i) eqn:E; [| eexists _, _; reflexivity]).
  - rewrite (bind_run _ _ _ _ _ (randomInt_run env n w)).
    rewrite Nat.add_0_r in Hd. fold (drawIndex env n (randomsDrawn w)).
    destruct bound; simpl;
      (destruct (Z.eqb_spec (drawIndex env n (randomsDrawn w)) i);
       [contradiction | eexists _, _; reflexivity]).
  - rewrite (bind_run _ _ _ _ _ (randomInt_run env n w)).
    apply IH; [lia |]. simpl. now rewrite <- Nat.add_succ_r.
Qed.

(** On at least two elements the call never answers [null] and never
    throws; it returns a pair as soon as one of the next [bound] random
    numbers picks an index other than the first one. *)
Lemma pickTwoDistinct_returns {T} env bound (arr : list T) w m :
  (2 <= length arr)%nat -> (m < bound)%nat ->
  drawIndex env (Z.of_nat (length arr)) (randomsDrawn w + 2 + m)
    <> drawIndex env (Z.of_nat (length arr)) (randomsDrawn w) ->
  exists x y w', pickTwoDistinct env bound arr w = (Returned (Some (x, y)), w').
Proof.
  intros Hlen Hm Hd. destruct arr as [| d [| b rest]]; simpl in Hlen; try lia.
  unfold pickTwoDistinct. set (arr := d :: b :: rest) in *.
  rewrite (bind_run _ _ _ _ _ (randomInt_run env _ w)).
  rewrite (bind_run _ _ _ _ _ (randomInt_run env _ _)).
  fold (drawIndex env (Z.of_nat (length arr)) (randomsDrawn w)).
  edestruct (redraw_settles env (Z.of_nat (length arr))
               (drawIndex env (Z.of_nat (length arr)) (randomsDrawn w))
               m bound) as (j & w3 & Hj); [exact Hm | | ].
  2: { rewrite (bind_run _ _ _ _ _ Hj). eexists _, _, _. reflexivity. }
  cbn [snd random randomsDrawn].
  replace (S (S (randomsDrawn w)) + m)%nat
    with (randomsDrawn w + 2 + m)%nat by lia.
  exact Hd.
Qed.


Lemma sampleEnv_randomInUnit : randomInUnit sampleEnv.
Proof.
  intros k. simpl. destruct (Nat.even k); split;
    unfold Qle, Qlt; simpl; lia.
Qed.

Lemma pickTwoDistinct_distinct_witness :
  pickTwoDistinct sampleEnv 3 ["a"] (initialWorld 0)
    = (Returned None, initialWorld 0) /\
  exists i j : nat, i <> j /\
    ["a"; "b"; "c"] !! i = Some "a" /\ ["a"; "b"; "c"] !! j = Some "c".
Proof.
  split.
  - apply (proj1 (pickTwoDistinct_distinct sampleEnv 3 ["a"] (initialWorld 0))).
    simpl. lia.
  - apply (proj2 (pickTwoDistinct_distinct sampleEnv 3 ["a"; "b"; "c"]
                    (initialWorld 0))
             sampleEnv_randomInUnit ltac:(simpl; lia) "a" "c"
             (snd (pickTwoDistinct sampleEnv 3 ["a"; "b"; "c"] (initialWorld 0)))).
    reflexivity.
Defined.

(** ** Frames: what each effect leaves alone *)

Create HintDb frames.

Lemma keeps_ret {A B} (f : World -> B) (a : A) : keeps f (ret a).
Proof. intros w. reflexivity. Qed.

Lemma keeps_throwError {A B} (f : World -> B) msg : keeps f (@throwError A msg).
Proof. intros w. reflexivity. Qed.

Lemma keeps_still {A B} (f : World -> B) (o : Outcome A) :
  keeps f (fun w => (o, w)).
Proof. intros w. reflexivity. Qed.

Lemma keeps_bind {A B C} (f : World -> C) (m : M A) (k : A -> M B) :
  keeps f m -> (forall a, keeps f (k a)) -> keeps f (bind m k).
Proof.
  intros Hm Hk w. specialize (Hm w). unfold bind.
  destruct (m w) as [[a | e |] w1]; simpl in *; [| assumption | assumption].
  rewrite <- Hm. apply Hk.
Qed.

Lemma keeps_mapM {A B C} (f : World -> C) (g : A -> M B) l :
  (forall x, keeps f (g x)) -> keeps f (mapM g l).
Proof.
  intros Hg. induction l as [| x l IH]; simpl.
  - apply keeps_ret.
  - apply keeps_bind; [apply Hg |]. intros y.
    apply keeps_bind; [apply IH |]. intros ys. apply keeps_ret.
Qed.

#[local] Hint Resolve keeps_ret keeps_throwError keeps_still : frames.

(** Case analysis over the shape of the code, then the hints. *)
Ltac frame :=
  repeat first
    [ progress auto with frames
    | solve [intros ?w; reflexivity]
    | apply keeps_bind
    | apply keeps_mapM
    | match goal with
      | |- forall _, _ => intro
      | |- keeps _ (if ?c then _ else _) => destruct c
      | |- keeps _ (match ?x with _ => _ end) => destruct x
      end ].

Lemma doFetch_keeps_game env rq : keeps game (doFetch env rq).
Proof. intros w. unfold doFetch. now destruct (fetch env _ rq). Qed.

Lemma doFetch_keeps_cache env rq : keeps poolCache (doFetch env rq).
Proof. intros w. unfold doFetch. now destruct (fetch env _ rq). Qed.

#[local] Hint Resolve doFetch_keeps_game doFetch_keeps_cache : frames.

Lemma normalizeGif_keeps_game env raw : keeps game (normalizeGif env raw).
Proof. unfold normalizeGif. frame. Qed.

Lemma normalizeGif_keeps_cache env raw : keeps poolCache (normalizeGif env raw).
Proof. unfold normalizeGif. frame. Qed.

Lemma normalizeGif_keeps_requests env raw : keeps requests (normalizeGif env raw).
Proof. unfold normalizeGif. frame. Qed.

#[local] Hint Resolve normalizeGif_keeps_game normalizeGif_keeps_cache
  normalizeGif_keeps_requests : frames.

Lemma fetchPool_keeps_game env theme : keeps game (fetchPool env theme).
Proof. unfold fetchPool. frame. Qed.

Lemma fetchPool_keeps_cache env theme : keeps poolCache (fetchPool env theme).
Proof. unfold fetchPool. frame. Qed.

Lemma ensurePool_keeps_game env theme : keeps game (ensurePool env theme).
Proof. pose proof fetchPool_keeps_game. unfold ensurePool. frame. Qed.

Lemma redraw_keeps {B} (f : World -> B) env n i bound j :
  keeps f (random env) -> keeps f (redraw env n i bound j).
Proof.
  intros Hr. revert j. induction bound as [| bound IH]; intros j; simpl;
    destruct (j =? i); auto with frames.
  apply keeps_bind; [| exact IH]. unfold randomInt. frame.
Qed.

Lemma pickTwoDistinct_keeps {B T} (f : World -> B) env bound (arr : list T) :
  keeps f (random env) -> keeps f (pickTwoDistinct env bound arr).
Proof.
  intros Hr. pose proof (redraw_keeps f env) as Hd.
  unfold pickTwoDistinct, randomInt. frame.
Qed.

(** ** Fetching a pool *)

Lemma truthy_nonempty s : truthy s = true <-> s <> "".
Proof. destruct s; simpl; split; congruence. Qed.

Lemma truthy_empty s : truthy s = false <-> s = "".
Proof. destruct s; simpl; split; congruence. Qed.

Lemma normalizeGif_run env raw w :
  exists item w',
    normalizeGif env raw w = (Returned item, w') /\
    displayUrl item = rawDisplayUrl raw.
Proof.
  unfold normalizeGif. destruct (raw_id raw); eexists _, _; split; reflexivity.
Qed.

Lemma mapM_normalizeGif_run env data :
  forall w, exists items w',
    mapM (normalizeGif env) data w = (Returned items, w') /\
    map displayUrl items = map rawDisplayUrl data.
Proof.
  induction data as [| raw data IH]; intros w; simpl.
  - eexists _, _. split; reflexivity.
  - destruct (normalizeGif_run env raw w) as (item & w1 & Hn & Hu).
    destruct (IH w1) as (items & w2 & Hm & Hus).
    rewrite (bind_run _ _ _ _ _ Hn), (bind_run _ _ _ _ _ Hm).
    eexists _, _. split; [reflexivity |]. simpl. now rewrite Hu, Hus.
Qed.

Lemma filter_displayUrl_length items :
  length (List.filter (fun g => truthy (displayUrl g)) items) =
  length (List.filter truthy (map displayUrl items)).
Proof.
  induction items as [| g items IH]; simpl; [reflexivity |].
  destruct (truthy (displayUrl g)); simpl; now rewrite IH.
Qed.

Lemma filter_displayUrl_ok items :
  Forall (fun g => displayUrl g <> "")
    (List.filter (fun g => truthy (displayUrl g)) items).
Proof.
  apply List.Forall_forall. intros g Hin. apply filter_In in Hin.
  now apply truthy_nonempty.
Qed.

Lemma fetchPool_missing_key env theme w :
  apiKey env = "" ->
  fetchPool env theme w = (Threw (Some missingKeyMessage), w).
Proof. intros H. unfold fetchPool. now rewrite H. Qed.

Lemma doFetch_resolved env theme w res :
  answer env theme w = FetchResolved res ->
  doFetch env (searchParams env theme) w =
    (Returned res, snd (doFetch env (searchParams env theme) w)).
Proof. unfold answer, doFetch. now intros ->. Qed.

Lemma doFetch_rejected env theme w e :
  answer env theme w = FetchRejected e ->
  doFetch env (searchParams env theme) w =
    (Threw e, snd (doFetch env (searchParams env theme) w)).
Proof. unfold answer, doFetch. now intros ->. Qed.

Lemma doFetch_requests env rq w :
  requests (snd (doFetch env rq w)) = rq :: requests w.
Proof. unfold doFetch. now destruct (fetch env _ rq). Qed.

Lemma fetchPool_upstream env theme w res :
  apiKey env <> "" ->
  answer env theme w = FetchResolved res -> ok res = false ->
  exists w', fetchPool env theme w = (Threw (Some (upstreamMessage res)), w').
Proof.
  intros Hk Ha Hok. unfold fetchPool.
  rewrite (proj2 (truthy_nonempty _) Hk). cbn [negb].
  rewrite (bind_run _ _ _ _ _ (doFetch_resolved env theme w res Ha)).
  rewrite Hok. eexists. reflexivity.
Qed.

Lemma fetchPool_few env theme w res json :
  apiKey env <> "" ->
  answer env theme w = FetchResolved res -> ok res = true ->
  body res = BodyJson json -> (usableCount json < 2)%nat ->
  exists w', fetchPool env theme w = (Threw (Some notEnoughResultsMessage), w').
Proof.
  intros Hk Ha Hok Hb Hfew. unfold fetchPool.
  rewrite (proj2 (truthy_nonempty _) Hk). cbn [negb].
  rewrite (bind_run _ _ _ _ _ (doFetch_resolved env theme w res Ha)).
  rewrite Hok, Hb. cbv beta iota zeta delta [negb].
  set (w1 := snd (doFetch env (searchParams env theme) w)).
  destruct (mapM_normalizeGif_run env
              (match json with Some d => d | None => [] end) w1)
    as (items & w2 & Hm & Hu).
  rewrite (bind_run _ _ _ _ _ Hm).
  unfold usableCount in Hfew. rewrite <- Hu, <- filter_displayUrl_length in Hfew.
  destruct (Z.ltb_spec (Z.of_nat (length
    (List.filter (fun g => truthy (displayUrl g)) items))) 2); [| lia].
  eexists. reflexivity.
Qed.


(** A failing fetch collaborator makes [fetchPool] throw. *)
Lemma fetchPool_fails env theme w :
  fetchFails env theme w -> exists e w', fetchPool env theme w = (Threw e, w').
Proof.
  intros Hf. destruct (truthy (apiKey env)) eqn:Ek.
  2: { apply truthy_empty in Ek.
       rewrite (fetchPool_missing_key env theme w Ek). eauto. }
  apply truthy_nonempty in Ek.
  destruct Hf as [e Ha | res Ha Hok | res e Ha Hok Hb | res json Ha Hok Hb Hfew].
  - unfold fetchPool. rewrite (proj2 (truthy_nonempty _) Ek). cbn [negb].
    unfold bind. rewrite (doFetch_rejected env theme w e Ha). eauto.
  - destruct (fetchPool_upstream env theme w res Ek Ha Hok) as (w' & H). eauto.
  - unfold fetchPool. rewrite (proj2 (truthy_nonempty _) Ek). cbn [negb].
    rewrite (bind_run _ _ _ _ _ (doFetch_resolved env theme w res Ha)).
    rewrite Hok, Hb. eauto.
  - destruct (fetchPool_few env theme w res json Ek Ha Hok Hb Hfew) as (w' & H).
    eauto.
Qed.

(** Whatever [fetchPool] returns is worth caching. *)
Lemma fetchPool_returned env theme w pool w' :
  fetchPool env theme w = (Returned pool, w') -> poolOk pool.
Proof.
  unfold fetchPool. destruct (negb (truthy (apiKey env))); [discriminate |].
  intros H. apply bind_returned in H. destruct H as (res & w1 & _ & H).
  destruct (negb (ok res)); [discriminate |].
  destruct (body res) as [e | json]; [discriminate |].
  apply bind_returned in H. destruct H as (items & w2 & _ & H).
  destruct (Z.ltb_spec (Z.of_nat (length
    (List.filter (fun g => truthy (displayUrl g)) items))) 2);
    [discriminate |].
  inversion H; subst. split; [lia | apply filter_displayUrl_ok].
Qed.

(** ** The pool cache *)

Lemma ensurePool_hit env theme w pool :
  reusable env theme w = Some pool ->
  ensurePool env theme w = (Returned pool, w).
Proof.
  unfold reusable, ensurePool, bind, cacheGet. cbv zeta.
  destruct (poolCache w !! poolKey env theme) as [cached |]; [| discriminate].
  destruct (2 <=? Z.of_nat (length cached)); [| discriminate].
  now intros [= ->].
Qed.

Lemma ensurePool_miss env theme w :
  reusable env theme w = None ->
  ensurePool env theme w =
    bind (fetchPool env theme)
      (fun fresh => bind (cacheSet (poolKey env theme) fresh)
                      (fun _ => ret fresh)) w.
Proof.
  unfold reusable, ensurePool, cacheGet. cbv zeta. unfold bind at 1.
  destruct (poolCache w !! poolKey env theme) as [cached |]; [| reflexivity].
  destruct (2 <=? Z.of_nat (length cached)); [discriminate | reflexivity].
Qed.

Lemma fetchPool_settles env theme w w' : fetchPool env theme w <> (Pending, w').
Proof.
  unfold fetchPool. destruct (negb (truthy (apiKey env))); [discriminate |].
  cbv zeta. unfold bind at 1.
  destruct (doFetch env (searchParams env theme) w) as [[res | e |] w1] eqn:Ef;
    [| discriminate | unfold doFetch in Ef; destruct (fetch env _ _); discriminate].
  destruct (negb (ok res)); [discriminate |].
  destruct (body res) as [e | json]; [discriminate |].
  destruct (mapM_normalizeGif_run env
              (match json with Some d => d | None => [] end) w1)
    as (items & w2 & Hm & _).
  rewrite (bind_run _ _ _ _ _ Hm).
  destruct (_ <? 2); discriminate.
Qed.

(** The three ways a call of [ensurePool] goes. *)
Lemma ensurePool_cases env theme w :
  (exists pool, reusable env theme w = Some pool /\
     ensurePool env theme w = (Returned pool, w)) \/
  (exists e w', reusable env theme w = None /\
     fetchPool env theme w = (Threw e, w') /\
     ensurePool env theme w = (Threw e, w')) \/
  (exists fresh w1, reusable env theme w = None /\
     fetchPool env theme w = (Returned fresh, w1) /\
     ensurePool env theme w =
       (Returned fresh, snd (cacheSet (poolKey env theme) fresh w1))).
Proof.
  destruct (reusable env theme w) as [pool |] eqn:Er.
  - left. exists pool. split; [reflexivity |]. now apply ensurePool_hit.
  - right. rewrite (ensurePool_miss env theme w Er).
    destruct (bind_outcome (fetchPool env theme)
      (fun fresh => bind (cacheSet (poolKey env theme) fresh) (fun _ => ret fresh)) w)
      as [(fresh & w1 & Hf & ->) | [(e & w1 & Hf & ->) | (w1 & Hf & _)]].
    + right. exists fresh, w1. auto.
    + left. exists e, w1. auto.
    + now apply fetchPool_settles in Hf.
Qed.

Lemma reusable_cached env theme w pool :
  reusable env theme w = Some pool ->
  poolCache w !! poolKey env theme = Some pool /\ (2 <= length pool)%nat.
Proof.
  unfold reusable. destruct (poolCache w !! poolKey env theme) as [cached |];
    [| discriminate].
  destruct (Z.leb_spec 2 (Z.of_nat (length cached))); [| discriminate].
  intros [= ->]. split; [reflexivity | lia].
Qed.

Lemma reusable_none_ok env theme w :
  cacheOk (poolCache w) -> reusable env theme w = None ->
  poolCache w !! poolKey env theme = None.
Proof.
  intros Hok. unfold reusable.
  destruct (poolCache w !! poolKey env theme) as [cached |] eqn:Ec;
    [| reflexivity].
  destruct (Hok _ _ Ec) as [Hlen _].
  destruct (Z.leb_spec 2 (Z.of_nat (length cached))); [discriminate | lia].
Qed.

Lemma reusable_absent env theme w :
  poolCache w !! poolKey env theme = None -> reusable env theme w = None.
Proof. unfold reusable. now intros ->. Qed.

Lemma cacheOk_insert c key pool :
  cacheOk c -> poolOk pool -> cacheOk (<[key := pool]> c).
Proof.
  intros Hc Hp k p. rewrite lookup_insert. case_decide.
  - now intros [= <-].
  - apply Hc.
Qed.

Lemma ensurePool_cacheOk env theme w :
  cacheOk (poolCache w) -> cacheOk (poolCache (snd (ensurePool env theme w))).
Proof.
  intros Hok.
  destruct (ensurePool_cases env theme w)
    as [(pool & _ & ->) | [(e & w' & _ & Hf & ->) | (fresh & w1 & _ & Hf & ->)]].
  - exact Hok.
  - pose proof (fetchPool_keeps_cache env theme w) as Hk.
    rewrite Hf in Hk. simpl in *. now rewrite Hk.
  - pose proof (fetchPool_keeps_cache env theme w) as Hk.
    rewrite Hf in Hk. simpl in *. rewrite Hk.
    apply cacheOk_insert; [exact Hok |].
    exact (fetchPool_returned env theme w fresh w1 Hf).
Qed.

Lemma cacheReached_ok w : cacheReached w -> cacheOk (poolCache w).
Proof.
  induction 1 as [w He | env theme w _ IH | w w' _ IH Heq].
  - rewrite He. intros key pool. now rewrite lookup_empty.
  - now apply ensurePool_cacheOk.
  - now rewrite Heq.
Qed.

Lemma ensurePool_cache_hold env theme w :
  cacheOk (poolCache w) ->
  forall key pool, poolCache w !! key = Some pool ->
    poolCache (snd (ensurePool env theme w)) !! key = Some pool.
Proof.
  intros Hok key pool Hin.
  pose proof (fetchPool_keeps_cache env theme w) as Hk.
  destruct (ensurePool_cases env theme w)
    as [(p & _ & ->) | [(e & w' & _ & Hf & ->) | (fresh & w1 & Hnone & Hf & ->)]];
    simpl; [exact Hin | |]; rewrite Hf in Hk; simpl in Hk; rewrite Hk; [exact Hin |].
  rewrite lookup_insert_ne; [exact Hin |].
  intros <-. rewrite (reusable_none_ok env theme w Hok Hnone) in Hin. discriminate.
Qed.

(** *** The same cache when calls overlap *)

Lemma ensurePoolBegin_hit env theme w pool :
  reusable env theme w = Some pool ->
  ensurePoolBegin env theme w = (Returned (Reused pool), w).
Proof.
  unfold reusable, ensurePoolBegin, bind, cacheGet. cbv zeta.
  destruct (poolCache w !! poolKey env theme) as [cached |]; [| discriminate].
  destruct (2 <=? Z.of_nat (length cached)); [| discriminate].
  now intros [= ->].
Qed.

Lemma ensurePoolBegin_miss env theme w :
  reusable env theme w = None ->
  ensurePoolBegin env theme w =
    if negb (truthy (apiKey env))
    then (Returned (Refused (Some missingKeyMessage)), w)
    else (Returned (Asked (answer env theme w)),
          snd (doFetch env (searchParams env theme) w)).
Proof.
  unfold reusable, ensurePoolBegin, bind, cacheGet, answer. cbv zeta.
  destruct (poolCache w !! poolKey env theme) as [cached |].
  - destruct (2 <=? Z.of_nat (length cached)); [discriminate |].
    intros _. now destruct (negb (truthy (apiKey env))).
  - intros _. now destruct (negb (truthy (apiKey env))).
Qed.

Lemma fetchPool_in_two_steps env theme w :
  fetchPool env theme w =
    if negb (truthy (apiKey env)) then (Threw (Some missingKeyMessage), w)
    else
      match answer env theme w with
      | FetchRejected e => (Threw e, snd (doFetch env (searchParams env theme) w))
      | FetchResolved res =>
          fetchPoolReceive env res (snd (doFetch env (searchParams env theme) w))
      end.
Proof.
  unfold fetchPool. destruct (negb (truthy (apiKey env))); [reflexivity |].
  cbv zeta. destruct (answer env theme w) as [e | res] eqn:Ha.
  - unfold bind. now rewrite (doFetch_rejected env theme w e Ha).
  - now rewrite (bind_run _ _ _ _ _ (doFetch_resolved env theme w res Ha)).
Qed.

Lemma ensurePool_in_two_steps env theme w :
  exists wt w1,
    ensurePoolBegin env theme w = (Returned wt, w1) /\
    ensurePool env theme w = ensurePoolEnd env theme wt w1.
Proof.
  destruct (reusable env theme w) as [pool |] eqn:Er.
  - exists (Reused pool), w. split; [now apply ensurePoolBegin_hit |].
    now rewrite (ensurePool_hit env theme w pool Er).
  - rewrite (ensurePoolBegin_miss env theme w Er),
      (ensurePool_miss env theme w Er).
    unfold bind at 1. rewrite fetchPool_in_two_steps.
    destruct (negb (truthy (apiKey env))).
    + eexists _, _. split; reflexivity.
    + eexists _, _. split; [reflexivity |].
      now destruct (answer env theme w).
Qed.

Lemma ensurePoolBegin_keeps_cache env theme : keeps poolCache (ensurePoolBegin env theme).
Proof.
  intros w. unfold ensurePoolBegin, bind, cacheGet. cbv zeta.
  destruct (poolCache w !! poolKey env theme) as [pool |];
    [destruct (2 <=? Z.of_nat (length pool)); [reflexivity |] |];
    (destruct (negb (truthy (apiKey env))); [reflexivity |]);
    cbn [snd]; apply doFetch_keeps_cache.
Qed.

Lemma fetchPoolReceive_keeps_cache env res : keeps poolCache (fetchPoolReceive env res).
Proof. unfold fetchPoolReceive. frame. Qed.

Lemma fetchPoolReceive_keeps_game env res : keeps game (fetchPoolReceive env res).
Proof. unfold fetchPoolReceive. frame. Qed.

Lemma fetchPoolReceive_returned env res w pool w' :
  fetchPoolReceive env res w = (Returned pool, w') -> poolOk pool.
Proof.
  unfold fetchPoolReceive. destruct (negb (ok res)); [discriminate |].
  destruct (body res) as [e | json]; [discriminate |].
  intros H. apply bind_returned in H. destruct H as (items & w2 & _ & H).
  destruct (Z.ltb_spec (Z.of_nat (length
    (List.filter (fun g => truthy (displayUrl g)) items))) 2);
    [discriminate |].
  inversion H; subst. split; [lia | apply filter_displayUrl_ok].
Qed.

Lemma fetchPoolReceive_settles env res w w' :
  fetchPoolReceive env res w <> (Pending, w').
Proof.
  unfold fetchPoolReceive. destruct (negb (ok res)); [discriminate |].
  destruct (body res) as [e | json]; [discriminate |].
  destruct (mapM_normalizeGif_run env
              (match json with Some d => d | None => [] end) w)
    as (items & w2 & Hm & _).
  cbv zeta. rewrite (bind_run _ _ _ _ _ Hm).
  destruct (_ <? 2); discriminate.
Qed.

Lemma fetchPoolReceive_fails env res w :
  waitFails (Asked (FetchResolved res)) ->
  exists e w', fetchPoolReceive env res w = (Threw e, w').
Proof.
  intros Hf. unfold fetchPoolReceive.
  inversion Hf as [| | r Hok | r e Hok Hb | r json Hok Hb Hfew]; subst;
    rewrite Hok; cbn [negb]; [eauto | rewrite Hb; eauto |].
  rewrite Hb. cbv zeta.
  destruct (mapM_normalizeGif_run env
              (match json with Some d => d | None => [] end) w)
    as (items & w2 & Hm & Hu).
  rewrite (bind_run _ _ _ _ _ Hm).
  unfold usableCount in Hfew. rewrite <- Hu, <- filter_displayUrl_length in Hfew.
  destruct (Z.ltb_spec (Z.of_nat (length
    (List.filter (fun g => truthy (displayUrl g)) items))) 2); [| lia].
  eauto.
Qed.

(** The ways the second step of a call goes. *)
Lemma ensurePoolEnd_cases env theme wt w :
  (exists pool, wt = Reused pool /\
     ensurePoolEnd env theme wt w = (Returned pool, w)) \/
  (exists e w', ensurePoolEnd env theme wt w = (Threw e, w') /\
     poolCache w' = poolCache w) \/
  (exists fresh w1,
     ensurePoolEnd env theme wt w
       = (Returned fresh, snd (cacheSet (poolKey env theme) fresh w1)) /\
     poolCache w1 = poolCache w /\ poolOk fresh).
Proof.
  destruct wt as [pool | e | [e | res]]; cbn [ensurePoolEnd].
  - left. eauto.
  - right. left. eauto.
  - right. left. eauto.
  - pose proof (fetchPoolReceive_keeps_cache env res w) as Hk.
    destruct (bind_outcome (fetchPoolReceive env res)
      (fun fresh => bind (cacheSet (poolKey env theme) fresh) (fun _ => ret fresh)) w)
      as [(fresh & w1 & Hf & ->) | [(e & w1 & Hf & ->) | (w1 & Hf & _)]].
    + right. right. exists fresh, w1. rewrite Hf in Hk.
      split; [reflexivity |]. split; [exact Hk |].
      exact (fetchPoolReceive_returned env res w fresh w1 Hf).
    + right. left. exists e, w1. rewrite Hf in Hk. auto.
    + now apply fetchPoolReceive_settles in Hf.
Qed.

Lemma ensurePoolEnd_cacheOk env theme wt w :
  cacheOk (poolCache w) -> cacheOk (poolCache (snd (ensurePoolEnd env theme wt w))).
Proof.
  intros Hok.
  destruct (ensurePoolEnd_cases env theme wt w)
    as [(pool & _ & ->) | [(e & w' & -> & Hc) | (fresh & w1 & -> & Hc & Hp)]];
    cbn [snd cacheSet poolCache].
  - exact Hok.
  - now rewrite Hc.
  - rewrite Hc. now apply cacheOk_insert.
Qed.

Lemma ensureStep_cacheOk w w' :
  ensureStep w w' -> cacheOk (poolCache w) -> cacheOk (poolCache w').
Proof.
  intros [env theme w0 | env theme wt w0 | w0 w1 Heq] Hok.
  - now rewrite ensurePoolBegin_keeps_cache.
  - now apply ensurePoolEnd_cacheOk.
  - now rewrite Heq.
Qed.

Lemma cacheInterleaved_ok w : cacheInterleaved w -> cacheOk (poolCache w).
Proof.
  intros (w0 & He & Hsteps).
  assert (H0 : cacheOk (poolCache w0)).
  { rewrite He. intros key pool. now rewrite lookup_empty. }
  clear He. induction Hsteps as [| x y z Hxy _ IH]; [exact H0 |].
  apply IH. exact (ensureStep_cacheOk x y Hxy H0).
Qed.

(** C9, as stated, fails when two calls overlap. Two calls for the same
    key start before either response is there, as the two mount effects do;
    both miss, both send a request; the first to end stores its list, and
    the second replaces it. (The two answers differ here, which makes the
    replacement visible in the value of the entry.) *)
Lemma overlapping_calls_replace_an_entry :
  let w1 := snd (ensurePoolBegin raceEnv "cats" (initialWorld 0)) in
  let w2 := snd (ensurePoolBegin raceEnv "cats" w1) in
  let first := Asked (fetch raceEnv 0 (searchParams raceEnv "cats")) in
  let second := Asked (fetch raceEnv 1 (searchParams raceEnv "cats")) in
  fst (ensurePoolBegin raceEnv "cats" (initialWorld 0)) = Returned first /\
  fst (ensurePoolBegin raceEnv "cats" w1) = Returned second /\
  let w3 := snd (ensurePoolEnd raceEnv "cats" first w2) in
  let w4 := snd (ensurePoolEnd raceEnv "cats" second w3) in
  exists stored replaced,
    poolCache w3 !! "cats|pg" = Some stored /\
    poolCache w4 !! "cats|pg" = Some replaced /\
    stored <> replaced.
Proof.
  cbv zeta. split; [reflexivity |]. split; [reflexivity |].
  eexists _, _. split; [vm_compute; reflexivity |].
  split; [vm_compute; reflexivity |]. discriminate.
Qed.

(** C9, amended. For a cache that started empty and has seen only steps of
    [ensurePool] calls, in any order: every entry is a list of at least 2
    items with non-empty display urls; the first step of a call never
    writes; a second step that throws leaves the map exactly as it was, and
    it throws when the fetch collaborator failed or gave fewer than 2
    usable items; no entry is ever removed and entries under other keys are
    never touched; a second step that writes stores the list it returns
    under the call's key, as a new key when the key is then absent. A call
    whose two steps run with nothing in between leaves every existing
    entry as it was. *)
Theorem cache_written_on_success_only w :
  cacheInterleaved w ->
  cacheOk (poolCache w) /\
  (forall env theme,
     poolCache (snd (ensurePoolBegin env theme w)) = poolCache w) /\
  (forall env theme wt,
     let r := ensurePoolEnd env theme wt w in
     (forall e, fst r = Threw e -> poolCache (snd r) = poolCache w) /\
     (waitFails wt -> exists e, fst r = Threw e /\ poolCache (snd r) = poolCache w) /\
     cacheOk (poolCache (snd r)) /\
     (forall key, is_Some (poolCache w !! key) -> is_Some (poolCache (snd r) !! key)) /\
     (forall key pool, key <> poolKey env theme ->
        poolCache w !! key = Some pool -> poolCache (snd r) !! key = Some pool) /\
     (poolCache (snd r) = poolCache w \/
      exists fresh,
        fst r = Returned fresh /\ poolOk fresh /\
        poolCache (snd r) = <[poolKey env theme := fresh]> (poolCache w)) /\
     (poolCache w !! poolKey env theme = None ->
      forall key pool, poolCache w !! key = Some pool ->
        poolCache (snd r) !! key = Some pool)) /\
  (forall env theme,
     let b := ensurePoolBegin env theme w in
     forall wt, fst b = Returned wt ->
     forall key pool, poolCache w !! key = Some pool ->
       poolCache (snd (ensurePoolEnd env theme wt (snd b))) !! key = Some pool).
Proof.
  intros Hreach. pose proof (cacheInterleaved_ok w Hreach) as Hok.
  split; [exact Hok |].
  split; [intros env theme; apply ensurePoolBegin_keeps_cache |].
  split.
  - intros env theme wt r.
    assert (Hcases := ensurePoolEnd_cases env theme wt w). fold r in Hcases.
    assert (Hsame : forall e, fst r = Threw e -> poolCache (snd r) = poolCache w).
    { intros e He.
      destruct Hcases
        as [(pool & _ & Hr) | [(e' & w' & Hr & Hc) | (fresh & w1 & Hr & _ & _)]];
        rewrite Hr in *; simpl in *; try discriminate. exact Hc. }
    split; [exact Hsame |]. split.
    { intros Hf.
      assert (Hthrow : exists e, fst r = Threw e).
      { subst r. inversion Hf as [e | e | res Hok' | res e Hok' Hb | res json Hok' Hb Hfew];
          subst; cbn [ensurePoolEnd]; try (eexists; reflexivity);
          destruct (fetchPoolReceive_fails env res w Hf) as (e' & w' & Hrecv);
          unfold bind; rewrite Hrecv; eexists; reflexivity. }
      destruct Hthrow as (e & He). exists e. split; [exact He | exact (Hsame e He)]. }
    split; [now apply ensurePoolEnd_cacheOk |].
    destruct Hcases
      as [(pool & _ & Hr) | [(e' & w' & Hr & Hc) | (fresh & w1 & Hr & Hc & Hp)]];
      rewrite Hr; cbn [fst snd cacheSet poolCache]; rewrite ?Hc.
    + repeat split; auto.
    + repeat split; auto.
    + split; [| split; [| split]].
      * intros key Hin. rewrite lookup_insert. case_decide; [eauto | exact Hin].
      * intros key pool Hne Hin. now rewrite lookup_insert_ne.
      * right. exists fresh. auto.
      * intros Habs key pool Hin. rewrite lookup_insert_ne; [exact Hin |].
        intros <-. congruence.
  - intros env theme b wt Hb key pool Hin.
    destruct (ensurePool_in_two_steps env theme w) as (wt' & w1 & Hbegin & Htwo).
    subst b. rewrite Hbegin in Hb |- *. cbn [fst snd] in *.
    inversion Hb; subst wt'. rewrite <- Htwo.
    now apply ensurePool_cache_hold.
Qed.

Lemma cache_written_on_success_only_witness :
  let w3 := snd (ensurePoolEnd raceEnv "cats"
                   (Asked (fetch raceEnv 0 (searchParams raceEnv "cats")))
                   (snd (ensurePoolBegin raceEnv "cats"
                           (snd (ensurePoolBegin raceEnv "cats" (initialWorld 0))))))
  in
  cacheInterleaved w3 /\ cacheOk (poolCache w3).
Proof.
  cbv zeta.
  assert (H : cacheInterleaved
    (snd (ensurePoolEnd raceEnv "cats"
            (Asked (fetch raceEnv 0 (searchParams raceEnv "cats")))
            (snd (ensurePoolBegin raceEnv "cats"
                    (snd (ensurePoolBegin raceEnv "cats" (initialWorld 0)))))))).
  { exists (initialWorld 0). split; [reflexivity |].
    eapply rtc_l; [apply ensure_begins |].
    eapply rtc_l; [apply ensure_begins |].
    eapply rtc_l; [apply ensure_ends |]. apply rtc_refl. }
  split; [exact H |]. exact (proj1 (cache_written_on_success_only _ H)).
Defined.






(** ** Loading a round *)

(** The two actions of a failed load, on any state whatever was dispatched
    in between: only [isLoading] and [error] change. *)
Lemma load_actions_frame now s :
  (let s' := gameReducer now s LOAD_PAIR_START in
   isLoading s' = true /\ error s' = None /\
   theme s' = theme s /\ round s' = round s /\ leftGif s' = leftGif s /\
   rightGif s' = rightGif s /\ poolCount s' = poolCount s /\
   score s' = score s /\ history s' = history s) /\
  (forall msg,
   let s' := gameReducer now s (LOAD_PAIR_ERROR msg) in
   isLoading s' = false /\ error s' = Some msg /\
   theme s' = theme s /\ round s' = round s /\ leftGif s' = leftGif s /\
   rightGif s' = rightGif s /\ poolCount s' = poolCount s /\
   score s' = score s /\ history s' = history s).
Proof. split; [| intros msg]; cbv zeta; repeat split. Qed.

Lemma loadPairAttempt_threw_keeps_game env bound w e w' :
  loadPairAttempt env bound w = (Threw e, w') -> game w' = game w.
Proof.
  unfold loadPairAttempt. unfold bind at 1, getState at 1.
  destruct (negb (truthy (trim (theme (game w))))).
  { now intros [= _ <-]. }
  intros H. apply bind_threw in H.
  destruct H as [H | (pool & w1 & Hp & H)].
  { pose proof (ensurePool_keeps_game env (trim (theme (game w))) w) as Hk.
    now rewrite H in Hk. }
  pose proof (ensurePool_keeps_game env (trim (theme (game w))) w) as Hk1.
  rewrite Hp in Hk1. simpl in Hk1.
  pose proof (pickTwoDistinct_keeps game env bound pool
                ltac:(intros ?; reflexivity) w1) as Hk2.
  apply bind_threw in H. destruct H as [H | (pair & w2 & Hq & H)].
  { rewrite H in Hk2. simpl in Hk2. congruence. }
  rewrite Hq in Hk2. simpl in Hk2.
  destruct pair as [[l r] |]; [discriminate |].
  inversion H; subst. congruence.
Qed.

(** A failed attempt ends in [LOAD_PAIR_ERROR] with the thrown message. *)
Lemma loadNextPair_on_throw env bound w e w1 :
  loadPairAttempt env bound (snd (dispatch LOAD_PAIR_START w)) = (Threw e, w1) ->
  exists w',
    loadNextPair env bound w = (Returned tt, w') /\
    game w' =
      gameReducer (clock w1)
        (gameReducer (clock w) (game w) LOAD_PAIR_START)
        (LOAD_PAIR_ERROR (match e with Some m => m | None => "Unknown error" end)).
Proof.
  intros H. pose proof (loadPairAttempt_threw_keeps_game _ _ _ _ _ H) as Hg.
  unfold loadNextPair. unfold bind at 1. cbn [dispatch].
  unfold tryCatch. cbn [dispatch snd] in H. rewrite H.
  eexists. split; [reflexivity |]. cbn [dispatch game snd]. now rewrite Hg.
Qed.

Lemma loadPairAttempt_fails env bound w f :
  failsWith env w f ->
  exists w', loadPairAttempt env bound w = (Threw (Some (failureMessage f)), w').
Proof.
  intros Hf. unfold loadPairAttempt. unfold bind at 1, getState at 1.
  destruct Hf as [Ht | Ht Hr Hk | res Ht Hr Hk Ha Hok
                  | res json Ht Hr Hk Ha Hok Hb Hfew].
  - rewrite (proj2 (truthy_empty _) Ht). eexists. reflexivity.
  - rewrite (proj2 (truthy_nonempty _) Ht). cbn [negb].
    unfold bind at 1. rewrite (ensurePool_miss _ _ _ Hr).
    unfold bind at 1. rewrite (fetchPool_missing_key _ _ _ Hk).
    eexists. reflexivity.
  - rewrite (proj2 (truthy_nonempty _) Ht). cbn [negb].
    unfold bind at 1. rewrite (ensurePool_miss _ _ _ Hr).
    destruct (fetchPool_upstream _ _ _ _ Hk Ha Hok) as (w' & H).
    unfold bind at 1. rewrite H. eexists. reflexivity.
  - rewrite (proj2 (truthy_nonempty _) Ht). cbn [negb].
    unfold bind at 1. rewrite (ensurePool_miss _ _ _ Hr).
    destruct (fetchPool_few _ _ _ _ _ Hk Ha Hok Hb Hfew) as (w' & H).
    unfold bind at 1. rewrite H. eexists. reflexivity.
Qed.

Lemma failsWith_started env w f :
  failsWith env w f -> failsWith env (snd (dispatch LOAD_PAIR_START w)) f.
Proof.
  intros [Ht | Ht Hr Hk | res Ht Hr Hk Ha Hok | res json Ht Hr Hk Ha Hok Hb Hfew].
  - now apply with_empty_theme.
  - now apply with_missing_credential.
  - now apply with_upstream_error.
  - now apply with_insufficient_results with res json.
Qed.

Lemma failureMessage_nonempty f : failureMessage f <> "".
Proof. destruct f; discriminate. Qed.

(** C3. When a round load fails (blank theme, missing credential, upstream
    error, or fewer than 2 usable results), [loadNextPair] returns with the
    failure's message, a non-empty text, in [error] and with [isLoading]
    cleared; the two sides, the score, the history and the round are those
    of the state before the call. *)
Theorem load_failure_keeps_board env bound w f :
  failsWith env w f ->
  exists w',
    loadNextPair env bound w = (Returned tt, w') /\
    error (game w') = Some (failureMessage f) /\
    failureMessage f <> "" /\
    isLoading (game w') = false /\
    leftGif (game w') = leftGif (game w) /\
    rightGif (game w') = rightGif (game w) /\
    score (game w') = score (game w) /\
    history (game w') = history (game w) /\
    round (game w') = round (game w).
Proof.
  intros Hf.
  destruct (loadPairAttempt_fails env bound _ f (failsWith_started env w f Hf))
    as (w1 & H1).
  destruct (loadNextPair_on_throw env bound w _ w1 H1) as (w' & Hrun & Hg).
  exists w'. split; [exact Hrun |]. rewrite Hg.
  split; [reflexivity |]. split; [apply failureMessage_nonempty |].
  repeat split.
Qed.

(** Any failure at all, named or not (a rejected request, an unreadable
    body), ends the same way: a message, no spinner, the board as it was. *)
Lemma load_error_frame env bound w e w1 :
  loadPairAttempt env bound (snd (dispatch LOAD_PAIR_START w)) = (Threw e, w1) ->
  exists w' msg,
    loadNextPair env bound w = (Returned tt, w') /\
    error (game w') = Some msg /\ isLoading (game w') = false /\
    leftGif (game w') = leftGif (game w) /\
    rightGif (game w') = rightGif (game w) /\
    score (game w') = score (game w) /\
    history (game w') = history (game w) /\
    round (game w') = round (game w).
Proof.
  intros H. destruct (loadNextPair_on_throw env bound w e w1 H) as (w' & Hrun & Hg).
  exists w'. eexists. split; [exact Hrun |]. rewrite Hg. repeat split.
Qed.


Lemma load_failure_keeps_board_witness :
  exists w',
    loadNextPair downEnv 3 boardWorld = (Returned tt, w') /\
    error (game w') = Some "GIPHY error: 503 Service Unavailable" /\
    "GIPHY error: 503 Service Unavailable" <> "" /\
    isLoading (game w') = false /\
    leftGif (game w') = leftGif (game boardWorld) /\
    rightGif (game w') = rightGif (game boardWorld) /\
    score (game w') = score (game boardWorld) /\
    history (game w') = history (game boardWorld) /\
    round (game w') = round (game boardWorld).
Proof.
  apply (load_failure_keeps_board downEnv 3 boardWorld
           (UpstreamError
              {| ok := false; status := 503;
                 statusText := "Service Unavailable"; body := BodyJson None |})).
  apply with_upstream_error.
  - vm_compute. discriminate.
  - vm_compute. reflexivity.
  - discriminate.
  - reflexivity.
  - reflexivity.
Defined.

(** The scenario of the specification: one usable item after filtering; the
    load ends in the error state and the pair of the round before stays. *)
Example scenario_one_usable_item :
  let w' := snd (loadNextPair sparseEnv 3 boardWorld) in
  error (game w') = Some notEnoughResultsMessage /\
  isLoading (game w') = false /\
  leftGif (game w') = leftGif (game boardWorld) /\
  rightGif (game w') = rightGif (game boardWorld) /\
  leftGif (game boardWorld) <> None /\
  poolCache w' = poolCache boardWorld.
Proof. vm_compute. repeat split. discriminate. Qed.

(** ** Changing the theme *)

(** C6. Whatever the state before and whatever the input, [setTheme]
    returns and leaves round 1, four zero score cells, an empty history, no
    left and no right item, pool count 0 and no error; the theme is the
    trimmed input, or "cats" when the trimmed input is empty. *)
Theorem setTheme_resets x w :
  fst (setTheme x w) = Returned tt /\
  let s' := game (snd (setTheme x w)) in
  round s' = 1 /\
  (forall vt sd, cell (score s') vt sd = 0) /\
  history s' = [] /\
  leftGif s' = None /\ rightGif s' = None /\
  poolCount s' = 0 /\
  error s' = None /\
  (trim x <> "" -> theme s' = trim x) /\
  (trim x = "" -> theme s' = "cats").
Proof.
  split; [reflexivity |]. cbv zeta. unfold setTheme, dispatch. simpl.
  repeat split.
  - intros [] []; reflexivity.
  - intros H. unfold strOr. now rewrite (proj2 (truthy_nonempty _) H).
  - intros H. unfold strOr. now rewrite (proj2 (truthy_empty _) H).
Qed.

Lemma setTheme_resets_witness :
  theme (game (snd (setTheme "  Dance  " boardWorld))) = "Dance" /\
  theme (game (snd (setTheme "   " boardWorld))) = "cats".
Proof.
  split.
  - apply (setTheme_resets "  Dance  " boardWorld). vm_compute. discriminate.
  - apply (setTheme_resets "   " boardWorld). reflexivity.
Defined.

(** The scenario of the specification: [setTheme("")] gives the default
    theme. *)
Example scenario_blank_theme :
  theme (game (snd (setTheme "" boardWorld))) = "cats".
Proof. reflexivity. Qed.

(** * Further properties of the duel *)

(** ** Runs of the reducer *)

Lemma run_app s tr1 tr2 : run s (tr1 ++ tr2) = run (run s tr1) tr2.
Proof. unfold run. apply fold_left_app. Qed.

(** X1. From the initial state or a reset, and until a pair has been
    loaded, nothing that is dispatched gets a vote counted: the board stays
    empty, the history empty, the round 1 and every score cell 0. *)
Theorem no_votes_before_a_pair s0 tr :
  freshRun s0 ->
  forallb (fun da => negb (isLoadSuccess (snd da))) tr = true ->
  let s := run s0 tr in
  leftGif s = None /\ rightGif s = None /\ history s = [] /\ round s = 1 /\
  score s = zeroScore /\ poolCount s = 0.
Proof.
  intros Hfresh Htr s. subst s.
  assert (H0 : leftGif s0 = None /\ rightGif s0 = None /\ history s0 = [] /\
               round s0 = 1 /\ score s0 = zeroScore /\ poolCount s0 = 0).
  { destruct Hfresh; repeat split. }
  clear Hfresh. revert s0 H0.
  induction tr as [| [now a] tr IH]; intros s0 H0; [exact H0 |].
  simpl in Htr. apply andb_true_iff in Htr. destruct Htr as [Ha Htr].
  rewrite run_cons. apply (IH Htr). simpl fst; simpl snd.
  destruct H0 as (Hl & Hr & Hh & Hn & Hs & Hp).
  destruct a as [th | | l0 r0 n | e | avt asd | |]; simpl in Ha;
    try discriminate; simpl; rewrite ?Hl, ?Hr, ?Hh; repeat split; assumption.
Qed.

Lemma no_votes_before_a_pair_witness :
  history (run initialState
             [(1, VOTE Like Left); (2, LOAD_PAIR_START); (3, VOTE Funny Right);
              (4, LOAD_PAIR_ERROR "down"); (5, UNDO_LAST_VOTE)]) = [].
Proof.
  apply (no_votes_before_a_pair initialState
           [(1, VOTE Like Left); (2, LOAD_PAIR_START); (3, VOTE Funny Right);
            (4, LOAD_PAIR_ERROR "down"); (5, UNDO_LAST_VOTE)] fresh_initial).
  reflexivity.
Defined.

Lemma undo_once now s :
  let s1 := gameReducer now s UNDO_LAST_VOTE in
  history s1 = skipn 1 (history s) /\
  theme s1 = theme s /\ leftGif s1 = leftGif s /\ rightGif s1 = rightGif s /\
  poolCount s1 = poolCount s /\ isLoading s1 = isLoading s /\
  error s1 = error s.
Proof.
  destruct (history s) as [| lst rest] eqn:Eh.
  - assert (E : gameReducer now s UNDO_LAST_VOTE = s) by (simpl; now rewrite Eh).
    cbv zeta. rewrite E, Eh. repeat split.
  - cbv zeta. rewrite (reduce_undo now s lst rest Eh). repeat split.
Qed.

Lemma undoTimes_invariant now k :
  forall s, numbered s -> tallied s ->
    let s' := undoTimes k now s in
    history s' = skipn k (history s) /\
    round s' = Z.max 1 (round s - Z.of_nat k) /\
    tallied s' /\
    theme s' = theme s /\ leftGif s' = leftGif s /\ rightGif s' = rightGif s /\
    poolCount s' = poolCount s /\ isLoading s' = isLoading s /\
    error s' = error s.
Proof.
  induction k as [| k IH]; intros s Hn Ht.
  - destruct Hn as [Hr _]. cbn [undoTimes skipn]. repeat split; try assumption.
    lia.
  - cbn [undoTimes].
    pose proof (numbered_step now s UNDO_LAST_VOTE Hn) as Hn1.
    pose proof (tallied_step now s UNDO_LAST_VOTE Ht) as Ht1.
    destruct (IH _ Hn1 Ht1) as (Hh & Hr & Htal & Hth & Hl & Hrg & Hp & Hld & He).
    destruct (undo_once now s) as (Hh1 & Hth1 & Hl1 & Hrg1 & Hp1 & Hld1 & He1).
    destruct Hn as [Hround _]. destruct Hn1 as [Hround1 _].
    rewrite Hh1 in Hround1.
    cbv zeta. rewrite Hh, Hr, Hth, Hl, Hrg, Hp, Hld, He, Hh1.
    repeat split; try assumption.
    + destruct (history s); [now rewrite skipn_nil | reflexivity].
    + destruct (history s) as [| lst rest].
      * change (length (skipn 1 (@nil VoteRecord))) with 0%nat in Hround1.
        change (length (@nil VoteRecord)) with 0%nat in Hround. lia.
      * change (skipn 1 (lst :: rest)) with rest in Hround1.
        change (length (lst :: rest)) with (S (length rest)) in Hround. lia.
Qed.

(** X2. On a state of a run, [k] presses of Undo remove the [k] newest
    records, take the round back by [k] (never below 1) and leave each score
    cell equal to the count of the records that remain; the theme, the pair
    on the board and the flags are not touched. Undoing as many votes as
    were cast gives round 1 and a zero score. *)
Theorem undo_walks_back s0 tr now k :
  freshRun s0 ->
  let s := run s0 tr in
  let s' := undoTimes k now s in
  history s' = skipn k (history s) /\
  round s' = Z.max 1 (round s - Z.of_nat k) /\
  (forall vt sd, cell (score s') vt sd = countVotes (skipn k (history s)) vt sd) /\
  theme s' = theme s /\ leftGif s' = leftGif s /\ rightGif s' = rightGif s /\
  ((length (history s) <= k)%nat ->
   round s' = 1 /\ forall vt sd, cell (score s') vt sd = 0).
Proof.
  intros Hfresh s s'.
  assert (Hn : numbered s).
  { apply (run_invariant numbered numbered_step), freshRun_numbered, Hfresh. }
  assert (Ht : tallied s).
  { apply (run_invariant tallied tallied_step), freshRun_tallied, Hfresh. }
  destruct (undoTimes_invariant now k s Hn Ht)
    as (Hh & Hr & Htal & Hth & Hl & Hrg & _).
  fold s' in Hh, Hr, Htal, Hth, Hl, Hrg.
  assert (Hc : forall vt sd,
             cell (score s') vt sd = countVotes (skipn k (history s)) vt sd).
  { intros vt sd. rewrite <- Hh. apply Htal. }
  repeat split; try assumption.
  - destruct Hn as [Hround _]. lia.
  - intros vt sd. rewrite Hc. rewrite skipn_all2 by assumption. reflexivity.
Qed.

Lemma undo_walks_back_witness :
  round (undoTimes 5 9 (run initialState scenarioRun)) = 1 /\
  history (undoTimes 1 9 (run initialState scenarioRun))
    = skipn 1 (history (run initialState scenarioRun)).
Proof.
  split.
  - apply (undo_walks_back initialState scenarioRun 9 5 fresh_initial).
    simpl. lia.
  - apply (undo_walks_back initialState scenarioRun 9 1 fresh_initial).
Defined.

(** X3. Every record of the history was cast under the current theme:
    changing the theme empties the history, and nothing else changes the
    theme. *)
Theorem history_is_of_current_theme s0 tr r :
  freshRun s0 -> In r (history (run s0 tr)) ->
  vr_theme r = theme (run s0 tr).
Proof.
  intros Hfresh.
  assert (H : forall x, In x (history (run s0 tr)) ->
              vr_theme x = theme (run s0 tr)).
  { apply (run_invariant
             (fun s => forall x, In x (history s) -> vr_theme x = theme s)).
    - intros now s a Hs.
      destruct a as [th | | l0 r0 n | e | avt asd | |]; simpl;
        try exact Hs; try (intros x []).
      + destruct (leftGif s) as [l |]; [| exact Hs].
        destruct (rightGif s) as [rg |]; [| exact Hs].
        destruct avt; simpl; (intros x [<- | Hin]; [reflexivity | now apply Hs]).
      + destruct (history s) as [| lst rest] eqn:Eh; [now rewrite Eh |].
        destruct (voteType lst); simpl; intros x Hin; apply Hs; now right.
    - destruct Hfresh; intros x []. }
  apply H.
Qed.

Lemma history_is_of_current_theme_witness :
  vr_theme (mkVoteRecord 2 "cats" Like Left "a" "b" 2)
    = theme (run initialState scenarioRun).
Proof.
  apply (history_is_of_current_theme initialState scenarioRun
           (mkVoteRecord 2 "cats" Like Left "a" "b" 2) fresh_initial).
  left. reflexivity.
Defined.

(** ** The history panel *)

Lemma hasDash_digits d : hasDash (NilEmpty.string_of_uint d) = false.
Proof. induction d; simpl; auto. Qed.

Lemma showNumber_no_dash n : 0 <= n -> hasDash (showNumber n) = false.
Proof.
  intros Hn. unfold showNumber. destruct n as [| p | p]; [reflexivity | | lia].
  simpl. unfold NilZero.string_of_uint.
  destruct (Pos.to_uint p) eqn:E; try reflexivity;
    rewrite <- E; apply hasDash_digits.
Qed.

Lemma showNumber_inj a b : showNumber a = showNumber b -> a = b.
Proof.
  unfold showNumber. intros H.
  assert (Hok : forall n, Z.to_int n <> Decimal.Pos Decimal.Nil /\
                          Z.to_int n <> Decimal.Neg Decimal.Nil).
  { intros [| p | p]; simpl; split; try discriminate;
      intros [= E]; now apply Unsigned.to_uint_nonnil in E. }
  apply DecimalZ.to_int_inj.
  pose proof (NilZero.isi (Z.to_int a) (proj1 (Hok a)) (proj2 (Hok a))) as Ha.
  pose proof (NilZero.isi (Z.to_int b) (proj1 (Hok b)) (proj2 (Hok b))) as Hb.
  rewrite H in Ha. rewrite Ha in Hb. now inversion Hb.
Qed.

Lemma hasDash_after x y : hasDash (x +:+ String "-" y) = true.
Proof.
  induction x as [| c x IH]; simpl; [reflexivity |].
  rewrite IH. apply orb_true_r.
Qed.

(** A text is cut at its last dash in one way only. *)
Lemma split_at_last_dash x1 : forall x2 y1 y2,
  hasDash y1 = false -> hasDash y2 = false ->
  x1 +:+ String "-" y1 = x2 +:+ String "-" y2 -> x1 = x2 /\ y1 = y2.
Proof.
  induction x1 as [| c x1 IH]; intros [| c2 x2] y1 y2 H1 H2 H; simpl in H.
  - now inversion H.
  - inversion H as [[Hc Hy]]. rewrite Hy, hasDash_after in H1. discriminate.
  - inversion H as [[Hc Hy]]. rewrite <- Hy, hasDash_after in H2. discriminate.
  - inversion H as [[Hc Hx]]. destruct (IH x2 y1 y2 H1 H2 Hx) as [-> ->]. auto.
Qed.

Lemma rowKey_inj v1 v2 :
  0 <= vr_round v1 -> 0 <= vr_round v2 -> rowKey v1 = rowKey v2 ->
  ts v1 = ts v2 /\ vr_round v1 = vr_round v2.
Proof.
  intros H1 H2 H. unfold rowKey in H.
  apply split_at_last_dash in H; try now apply showNumber_no_dash.
  destruct H as [Ht Hr]. split; now apply showNumber_inj.
Qed.

Lemma countdown_bounds n x : In x (countdown n) -> 1 <= x <= Z.of_nat n.
Proof.
  induction n as [| n IH]; [intros [] |].
  intros [<- | Hin]; [lia |]. specialize (IH Hin). lia.
Qed.

Lemma countdown_NoDup n : NoDup (countdown n).
Proof.
  induction n as [| n IH]; [apply NoDup_nil_2 |].
  cbn [countdown]. apply NoDup_cons_2; [| exact IH].
  intros Hin. apply list_elem_of_In, countdown_bounds in Hin. lia.
Qed.

Lemma NoDup_map_through {A B C} (f : A -> B) (g : A -> C) (l : list A) :
  (forall x y, In x l -> In y l -> f x = f y -> g x = g y) ->
  NoDup (map g l) -> NoDup (map f l).
Proof.
  induction l as [| a l IH]; intros Hfg Hg; [apply NoDup_nil_2 |].
  simpl in *. apply NoDup_cons in Hg. destruct Hg as [Hnotin Hrest].
  apply NoDup_cons_2.
  - intros Hin. apply list_elem_of_In, in_map_iff in Hin.
    destruct Hin as (b & Hb & Hbin).
    apply Hnotin. apply list_elem_of_In, in_map_iff. exists b.
    split; [| exact Hbin]. apply Hfg; auto.
  - apply IH; [| exact Hrest]. intros x y Hx Hy. apply Hfg; auto.
Qed.

(** X4. In every state of a run the rows of the history panel, the newest 8
    records at most, carry pairwise different React keys
    [`${v.ts}-${v.round}`], whatever the clock answered: no two records
    share a round. *)
Theorem history_rows_have_distinct_keys s0 tr :
  freshRun s0 ->
  let s := run s0 tr in
  NoDup (map rowKey (recentVotes s)) /\
  (length (recentVotes s) <= 8)%nat /\
  NoDup (map vr_round (history s)).
Proof.
  intros Hfresh s.
  assert (Hn : numbered s).
  { apply (run_invariant numbered numbered_step), freshRun_numbered, Hfresh. }
  destruct Hn as [_ Hm].
  assert (Hrounds : NoDup (map vr_round (history s))).
  { rewrite Hm. apply countdown_NoDup. }
  assert (Hkeys : NoDup (map rowKey (history s))).
  { apply (NoDup_map_through rowKey vr_round); [| exact Hrounds].
    intros x y Hx Hy Hk.
    assert (Hb : forall v, In v (history s) -> 0 <= vr_round v).
    { intros v Hv. apply (in_map vr_round) in Hv. rewrite Hm in Hv.
      apply countdown_bounds in Hv. lia. }
    now destruct (rowKey_inj x y (Hb x Hx) (Hb y Hy) Hk). }
  split; [| split; [| exact Hrounds]].
  - unfold recentVotes. rewrite <- firstn_map.
    apply (sublist_NoDup _ _ Hkeys), sublist_take.
  - unfold recentVotes. apply firstn_le_length.
Qed.

Lemma history_rows_have_distinct_keys_witness :
  NoDup (map rowKey (recentVotes (run initialState scenarioRun))).
Proof.
  apply (history_rows_have_distinct_keys initialState scenarioRun fresh_initial).
Defined.

(** ** The arena *)

(** X5. [GifArena] offers the vote buttons exactly when nothing is
    loading, no non-empty error is set and both sides are loaded; and a vote
    cast from the buttons it shows is never dropped by the guard of [VOTE]:
    the round advances and the record names the two items shown. *)
Theorem arena_offers_votes_that_count s l r :
  (GifArena s = Duel l r <->
   isLoading s = false /\ (error s = None \/ error s = Some "") /\
   leftGif s = Some l /\ rightGif s = Some r) /\
  (GifArena s = Duel l r ->
   forall now vt sd,
     let s' := gameReducer now s (VOTE vt sd) in
     round s' = round s + 1 /\
     exists rec, history s' = rec :: history s /\
       leftId rec = id l /\ rightId rec = id r /\
       voteType rec = vt /\ winnerSide rec = sd).
Proof.
  assert (Hiff : GifArena s = Duel l r <->
    isLoading s = false /\ (error s = None \/ error s = Some "") /\
    leftGif s = Some l /\ rightGif s = Some r).
  { unfold GifArena. split.
    - destruct (isLoading s); [discriminate |].
      destruct (error s) as [[| c m] |]; try discriminate;
        destruct (leftGif s) as [l0 |]; try discriminate;
        destruct (rightGif s) as [r0 |]; try discriminate;
        intros [= -> ->]; auto.
    - intros (-> & He & -> & ->). now destruct He as [-> | ->]. }
  split; [exact Hiff |].
  intros Hd now vt sd. apply Hiff in Hd. destruct Hd as (_ & _ & Hl & Hr).
  cbv zeta. rewrite (reduce_vote now s vt sd l r Hl Hr).
  split; [reflexivity |]. eexists. split; [reflexivity |]. repeat split.
Qed.

Lemma arena_offers_votes_that_count_witness :
  round (gameReducer 5 (game boardWorld) (VOTE Like Right)) = 2.
Proof.
  refine (proj1 (proj2 (arena_offers_votes_that_count (game boardWorld) _ _)
                   _ 5 Like Right)).
  vm_compute. reflexivity.
Defined.

(** ** Random indices *)

(** X6. [randomInt(min, max)] with [min < max] returns an integer at least
    [min] and below [max] ("inclusive min, exclusive max"), given that
    [Math.random()] lies in [0, 1); it draws one random number. *)
Theorem randomInt_in_range env min max w :
  randomInUnit env -> min < max ->
  exists v,
    randomInt env min max w = (Returned v, snd (random env w)) /\
    min <= v < max /\
    randomsDrawn (snd (random env w)) = S (randomsDrawn w).
Proof.
  intros Hu Hlt. eexists. split; [reflexivity |]. split; [| reflexivity].
  destruct (Hu (randomsDrawn w)) as [H0 H1].
  pose proof (Qfloor_unit_scale _ (max - min) H0 H1 ltac:(lia)). lia.
Qed.

Lemma randomInt_in_range_witness :
  exists v, randomInt sampleEnv 3 7 (snd (random sampleEnv (initialWorld 0)))
            = (Returned v, snd (random sampleEnv
                                  (snd (random sampleEnv (initialWorld 0))))) /\
            3 <= v < 7 /\
            randomsDrawn (snd (random sampleEnv
                                 (snd (random sampleEnv (initialWorld 0))))) = 2%nat.
Proof.
  apply (randomInt_in_range sampleEnv 3 7
           (snd (random sampleEnv (initialWorld 0))) sampleEnv_randomInUnit).
  lia.
Defined.

(** ** What a fetched pool holds *)

Lemma map_filter_displayUrl items :
  map displayUrl (List.filter (fun g => truthy (displayUrl g)) items) =
  List.filter truthy (map displayUrl items).
Proof.
  induction items as [| g items IH]; simpl; [reflexivity |].
  destruct (truthy (displayUrl g)); simpl; now rewrite IH.
Qed.

(** X7. When [fetchPool] returns, the key was configured, exactly one
    request was sent, carrying the theme as given, the limit 25, the rating
    and the language "en", the response was ok, and the pool lists, in the
    order of the response, the display urls of the records that have one;
    there are at least 2 of them. *)
Theorem fetchPool_returns_usable_records env theme w pool w' :
  fetchPool env theme w = (Returned pool, w') ->
  apiKey env <> "" /\
  requests w' =
    {| api_key := apiKey env; q := theme; req_limit := "25";
       req_rating := ratingString (rating env); lang := "en" |} :: requests w /\
  exists res json,
    answer env theme w = FetchResolved res /\ ok res = true /\
    body res = BodyJson json /\
    map displayUrl pool =
      List.filter truthy
        (map rawDisplayUrl (match json with Some d => d | None => [] end)) /\
    (2 <= length pool)%nat /\
    poolCache w' = poolCache w /\ game w' = game w.
Proof.
  intros H.
  pose proof (fetchPool_keeps_cache env theme w) as Hc.
  pose proof (fetchPool_keeps_game env theme w) as Hg.
  rewrite H in Hc, Hg. simpl in Hc, Hg.
  unfold fetchPool in H.
  destruct (truthy (apiKey env)) eqn:Ek; [| discriminate]. cbn [negb] in H.
  apply truthy_nonempty in Ek. split; [exact Ek |].
  apply bind_returned in H. destruct H as (res & w1 & Hf & H).
  assert (Ha : answer env theme w = FetchResolved res).
  { unfold answer. unfold doFetch in Hf.
    destruct (fetch env _ _); [discriminate | now inversion Hf]. }
  assert (Hw1 : w1 = snd (doFetch env (searchParams env theme) w)) by now rewrite Hf.
  destruct (ok res) eqn:Hok; [| discriminate]. cbn [negb] in H.
  destruct (body res) as [e | json] eqn:Hb; [discriminate |].
  apply bind_returned in H. destruct H as (items & w2 & Hm & H).
  destruct (mapM_normalizeGif_run env
              (match json with Some d => d | None => [] end) w1)
    as (items' & w2' & Hm' & Hu).
  rewrite Hm in Hm'. inversion Hm'; subst items' w2'.
  pose proof (keeps_mapM requests (normalizeGif env)
                (match json with Some d => d | None => [] end)
                (normalizeGif_keeps_requests env) w1) as Hreq.
  rewrite Hm in Hreq. cbn [snd] in Hreq.
  destruct (Z.ltb_spec (Z.of_nat (length
    (List.filter (fun g => truthy (displayUrl g)) items))) 2);
    [discriminate |].
  inversion H; subst pool w'. split.
  - rewrite Hreq, Hw1. apply doFetch_requests.
  - exists res, json. repeat split; try assumption; try reflexivity.
    + now rewrite map_filter_displayUrl, Hu.
    + lia.
Qed.

Lemma fetchPool_returns_usable_records_witness :
  requests (snd (fetchPool sampleEnv "cats" (initialWorld 0)))
    = [ {| api_key := "KEY"; q := "cats"; req_limit := "25";
           req_rating := "pg"; lang := "en" |} ].
Proof.
  apply (fetchPool_returns_usable_records sampleEnv "cats" (initialWorld 0)
           (match fst (fetchPool sampleEnv "cats" (initialWorld 0)) with
            | Returned p => p | _ => [] end)
           (snd (fetchPool sampleEnv "cats" (initialWorld 0)))).
  reflexivity.
Defined.

(** ** A round load from start to end *)


Lemma loadNextPair_unfold env bound w :
  loadNextPair env bound w =
    match loadPairAttempt env bound (snd (dispatch LOAD_PAIR_START w)) with
    | (Threw e, w1) =>
        dispatch (LOAD_PAIR_ERROR
                    (match e with Some m => m | None => "Unknown error" end)) w1
    | r => r
    end.
Proof. reflexivity. Qed.

Lemma ensurePool_returned_cached env theme w pool w1 :
  ensurePool env theme w = (Returned pool, w1) ->
  poolCache w1 !! poolKey env theme = Some pool.
Proof.
  intros H.
  destruct (ensurePool_cases env theme w)
    as [(p & Hr & H') | [(e & w0 & _ & _ & H') | (fresh & w0 & _ & Hf & H')]];
    rewrite H' in H; try discriminate; injection H as Hp Hw; subst pool w1.
  - now destruct (reusable_cached env theme w p Hr).
  - simpl. apply lookup_insert_eq.
Qed.

(** How a returned attempt went. *)
Lemma loadPairAttempt_returned env bound w w' :
  loadPairAttempt env bound w = (Returned tt, w') ->
  exists pool w1 l r w2,
    trim (theme (game w)) <> "" /\
    ensurePool env (trim (theme (game w))) w = (Returned pool, w1) /\
    pickTwoDistinct env bound pool w1 = (Returned (Some (l, r)), w2) /\
    w' = snd (dispatch (LOAD_PAIR_SUCCESS l r (Z.of_nat (length pool))) w2).
Proof.
  unfold loadPairAttempt. unfold bind at 1, getState at 1.
  destruct (truthy (trim (theme (game w)))) eqn:Et; [| discriminate].
  cbn [negb]. intros H.
  apply bind_returned in H. destruct H as (pool & w1 & Hp & H).
  apply bind_returned in H. destruct H as (pair & w2 & Hq & H).
  destruct pair as [[l r] |]; [| discriminate].
  exists pool, w1, l, r, w2. split; [now apply truthy_nonempty |].
  split; [exact Hp |]. split; [exact Hq |]. now inversion H.
Qed.

Lemma loadPairAttempt_pending env bound w w' :
  loadPairAttempt env bound w = (Pending, w') -> game w' = game w.
Proof.
  unfold loadPairAttempt. unfold bind at 1, getState at 1.
  destruct (negb (truthy (trim (theme (game w))))); [discriminate |].
  intros H.
  destruct (bind_outcome (ensurePool env (trim (theme (game w))))
    (fun pool => bind (pickTwoDistinct env bound pool)
       (fun pair => match pair with
          | None => throwError notEnoughPoolMessage
          | Some (leftGif, rightGif) =>
              dispatch (LOAD_PAIR_SUCCESS leftGif rightGif (Z.of_nat (length pool)))
          end)) w)
    as [(pool & w1 & Hp & E) | [(e & w1 & Hp & E) | (w1 & Hp & E)]];
    rewrite E in H; clear E; try discriminate.
  - pose proof (ensurePool_keeps_game env (trim (theme (game w))) w) as Hk1.
    rewrite Hp in Hk1. simpl in Hk1.
    pose proof (pickTwoDistinct_keeps game env bound pool
                  ltac:(intros ?; reflexivity) w1) as Hk2.
    match type of H with bind ?m ?k ?w0 = _ =>
      destruct (bind_outcome m k w0)
        as [(pair & w2 & Hq & E) | [(e & w2 & Hq & E) | (w2 & Hq & E)]] end;
      rewrite E in H; clear E; try discriminate.
    + destruct pair as [[l r] |]; discriminate.
    + inversion H; subst. rewrite Hq in Hk2. simpl in Hk2. congruence.
  - inversion H; subst.
    pose proof (ensurePool_keeps_game env (trim (theme (game w))) w) as Hk1.
    now rewrite Hp in Hk1.
Qed.

(** X8. [loadNextPair] lets no exception out: it never throws. When it
    returns the spinner is off, and the error is unset exactly when the
    attempt went through. While the pairing loop has not ended the
    spinner is on and the rest of the state is as before the call. *)
Theorem loadNextPair_catches_everything env bound w :
  (forall e w', loadNextPair env bound w <> (Threw e, w')) /\
  (forall w', loadNextPair env bound w = (Returned tt, w') ->
     isLoading (game w') = false /\
     (error (game w') = None <->
      loadPairAttempt env bound (snd (dispatch LOAD_PAIR_START w))
        = (Returned tt, w'))) /\
  (forall w', loadNextPair env bound w = (Pending, w') ->
     game w' = gameReducer (clock w) (game w) LOAD_PAIR_START /\
     isLoading (game w') = true).
Proof.
  rewrite loadNextPair_unfold.
  destruct (loadPairAttempt env bound (snd (dispatch LOAD_PAIR_START w)))
    as [[[] | e |] w1] eqn:Ha.
  - split; [discriminate |]. split; [| discriminate].
    intros w' H. inversion H; subst w'.
    destruct (loadPairAttempt_returned _ _ _ _ Ha)
      as (pool & w0 & l & r & w2 & _ & _ & _ & ->).
    split; [reflexivity |]. split; [reflexivity | intros _; reflexivity].
  - split; [discriminate |]. split; [| discriminate].
    intros w' H. inversion H; subst w'. split; [reflexivity |].
    split; [discriminate | discriminate].
  - split; [discriminate |]. split; [discriminate |].
    intros w' H. inversion H; subst w'.
    apply loadPairAttempt_pending in Ha. rewrite Ha. split; reflexivity.
Qed.

Lemma loadNextPair_catches_everything_witness :
  isLoading (game (snd (loadNextPair downEnv 3 boardWorld))) = false.
Proof.
  apply (proj1 (proj2 (loadNextPair_catches_everything downEnv 3 boardWorld))
           (snd (loadNextPair downEnv 3 boardWorld))).
  reflexivity.
Defined.

(** What a load that returned without an error did. *)
Lemma load_success_trace env bound w w' :
  loadNextPair env bound w = (Returned tt, w') -> error (game w') = None ->
  exists pool w1 l r w2,
    trim (theme (game w)) <> "" /\
    ensurePool env (trim (theme (game w))) (snd (dispatch LOAD_PAIR_START w))
      = (Returned pool, w1) /\
    pickTwoDistinct env bound pool w1 = (Returned (Some (l, r)), w2) /\
    w' = snd (dispatch (LOAD_PAIR_SUCCESS l r (Z.of_nat (length pool))) w2) /\
    game w2 = gameReducer (clock w) (game w) LOAD_PAIR_START /\
    poolCache w2 = poolCache w1 /\ requests w2 = requests w1.
Proof.
  intros H He. rewrite loadNextPair_unfold in H.
  destruct (loadPairAttempt env bound (snd (dispatch LOAD_PAIR_START w)))
    as [[[] | e |] wa] eqn:Ha; try discriminate.
  2: { inversion H; subst w'. discriminate He. }
  inversion H; subst wa.
  destruct (loadPairAttempt_returned _ _ _ _ Ha)
    as (pool & w1 & l & r & w2 & Ht & Hp & Hq & Hw).
  exists pool, w1, l, r, w2. split; [exact Ht |]. split; [exact Hp |].
  split; [exact Hq |]. split; [exact Hw |].
  pose proof (ensurePool_keeps_game env
                (trim (theme (game (snd (dispatch LOAD_PAIR_START w)))))
                (snd (dispatch LOAD_PAIR_START w))) as Hk1.
  rewrite Hp in Hk1. cbn [snd dispatch game] in Hk1.
  pose proof (pickTwoDistinct_keeps game env bound pool
                ltac:(intros ?; reflexivity) w1) as Hk2.
  pose proof (pickTwoDistinct_keeps poolCache env bound pool
                ltac:(intros ?; reflexivity) w1) as Hk3.
  pose proof (pickTwoDistinct_keeps requests env bound pool
                ltac:(intros ?; reflexivity) w1) as Hk4.
  rewrite Hq in Hk2, Hk3, Hk4. cbn [snd] in Hk2, Hk3, Hk4.
  split; [congruence |]. split; assumption.
Qed.



Lemma readAt_In {T} (arr : list T) d i : In d arr -> In (readAt arr d i) arr.
Proof.
  intros Hd. unfold readAt. destruct (i <? 0); [exact Hd |].
  destruct (nth_in_or_default (Z.to_nat i) arr d) as [Hin | ->]; assumption.
Qed.

(** X10. With a reachable cache, a load that returns without an error puts
    two items on the board that both have a non-empty display url. *)
Theorem loaded_pair_has_urls env bound w w' :
  cacheReached w ->
  loadNextPair env bound w = (Returned tt, w') ->
  error (game w') = None ->
  exists l r,
    leftGif (game w') = Some l /\ rightGif (game w') = Some r /\
    displayUrl l <> "" /\ displayUrl r <> "".
Proof.
  intros Hreach H He.
  destruct (load_success_trace env bound w w' H He)
    as (pool & w1 & l & r & w2 & Ht & Hp & Hq & Hw & Hg & Hc & _).
  assert (Hok : cacheOk (poolCache w1)).
  { pose proof (ensurePool_cacheOk env (trim (theme (game w)))
                  (snd (dispatch LOAD_PAIR_START w))
                  (cacheReached_ok w Hreach)) as Hok.
    now rewrite Hp in Hok. }
  pose proof (ensurePool_returned_cached _ _ _ _ _ Hp) as Hcached.
  destruct (Hok _ _ Hcached) as [_ Hurls].
  rewrite List.Forall_forall in Hurls.
  assert (Hin : In l pool /\ In r pool).
  { destruct pool as [| d [| b rest]]; try discriminate.
    unfold pickTwoDistinct in Hq.
    apply bind_returned in Hq. destruct Hq as (i & v1 & _ & Hq).
    apply bind_returned in Hq. destruct Hq as (j0 & v2 & _ & Hq).
    apply bind_returned in Hq. destruct Hq as (j & v3 & _ & Hq).
    inversion Hq; subst l r.
    split; apply readAt_In; now left. }
  exists l, r. subst w'. split; [reflexivity |]. split; [reflexivity |].
  split; apply Hurls; tauto.
Qed.

Lemma loaded_pair_has_urls_witness :
  exists l r,
    leftGif (game boardWorld) = Some l /\ rightGif (game boardWorld) = Some r /\
    displayUrl l <> "" /\ displayUrl r <> "".
Proof.
  apply (loaded_pair_has_urls sampleEnv 3 (initialWorld 0) boardWorld).
  - apply reached_empty. reflexivity.
  - reflexivity.
  - reflexivity.
Defined.

(** ** Voting from the arena *)





(** ** Requests and cache across a load *)

Lemma bind_after {A B C} (f : World -> C) (m : M A) (k : A -> M B) w :
  (forall a, keeps f (k a)) -> f (snd (bind m k w)) = f (snd (m w)).
Proof.
  intros Hk. unfold bind.
  destruct (m w) as [[a | e |] w1]; simpl; [apply Hk | reflexivity | reflexivity].
Qed.

Lemma tryCatch_after {A C} (f : World -> C) (m : M A) h w :
  (forall e, keeps f (h e)) -> f (snd (tryCatch m h w)) = f (snd (m w)).
Proof.
  intros Hh. unfold tryCatch.
  destruct (m w) as [[a | e |] w1]; simpl; [reflexivity | apply Hh | reflexivity].
Qed.

Lemma fetchPool_requests env theme w :
  (apiKey env = "" /\ requests (snd (fetchPool env theme w)) = requests w) \/
  (apiKey env <> "" /\
   requests (snd (fetchPool env theme w)) = searchParams env theme :: requests w).
Proof.
  unfold fetchPool. destruct (truthy (apiKey env)) eqn:Ek; cbn [negb].
  - right. split; [now apply truthy_nonempty |]. cbv zeta.
    rewrite bind_after; [apply doFetch_requests |].
    intros res. frame.
  - left. split; [now apply truthy_empty | reflexivity].
Qed.

Lemma ensurePool_requests env theme w :
  requests (snd (ensurePool env theme w)) =
    match reusable env theme w with
    | Some _ => requests w
    | None => requests (snd (fetchPool env theme w))
    end.
Proof.
  destruct (reusable env theme w) as [pool |] eqn:Er.
  - now rewrite (ensurePool_hit env theme w pool Er).
  - rewrite (ensurePool_miss env theme w Er). apply bind_after.
    intros fresh. frame.
Qed.

Lemma loadPairAttempt_unfold env bound w :
  loadPairAttempt env bound w =
    if negb (truthy (trim (theme (game w))))
    then (Threw (Some emptyThemeMessage), w)
    else
      bind (ensurePool env (trim (theme (game w))))
        (fun pool => bind (pickTwoDistinct env bound pool)
           (fun pair => match pair with
              | None => throwError notEnoughPoolMessage
              | Some (leftGif, rightGif) =>
                  dispatch (LOAD_PAIR_SUCCESS leftGif rightGif
                              (Z.of_nat (length pool)))
              end)) w.
Proof.
  unfold loadPairAttempt. unfold bind at 1, getState at 1.
  now destruct (negb (truthy (trim (theme (game w))))).
Qed.

Lemma loadPairAttempt_after_ensure {C} (f : World -> C) env bound w :
  keeps f (random env) -> (forall a, keeps f (dispatch a)) ->
  f (snd (loadPairAttempt env bound w)) = f w \/
  f (snd (loadPairAttempt env bound w)) =
    f (snd (ensurePool env (trim (theme (game w))) w)).
Proof.
  intros Hr Hd. rewrite loadPairAttempt_unfold.
  destruct (negb (truthy (trim (theme (game w))))); [now left |].
  right. apply bind_after. intros pool.
  apply keeps_bind; [now apply pickTwoDistinct_keeps |].
  intros [[l r] |]; [apply Hd | apply keeps_throwError].
Qed.

Lemma loadNextPair_after_ensure {C} (f : World -> C) env bound w :
  keeps f (random env) -> (forall a, keeps f (dispatch a)) ->
  f (snd (loadNextPair env bound w)) = f w \/
  f (snd (loadNextPair env bound w)) =
    f (snd (ensurePool env (trim (theme (game w)))
              (snd (dispatch LOAD_PAIR_START w)))).
Proof.
  intros Hr Hd.
  change (loadNextPair env bound w) with
    (tryCatch (loadPairAttempt env bound)
       (fun err => dispatch (LOAD_PAIR_ERROR
          (match err with Some m => m | None => "Unknown error" end)))
       (snd (dispatch LOAD_PAIR_START w))).
  rewrite tryCatch_after by (intros e; apply Hd).
  destruct (loadPairAttempt_after_ensure f env bound
              (snd (dispatch LOAD_PAIR_START w)) Hr Hd) as [H | H].
  - left. rewrite H. apply Hd.
  - right. exact H.
Qed.

(** X12. One load sends at most one request, the search for the trimmed
    theme; it sends none when the theme is blank, when the pool of the theme
    is cached with 2 items or more, or when no key is configured. *)
Theorem load_sends_at_most_one_request env bound w :
  let w' := snd (loadNextPair env bound w) in
  (requests w' = requests w \/
   requests w' = searchParams env (trim (theme (game w))) :: requests w) /\
  (trim (theme (game w)) = "" \/ apiKey env = "" \/
   reusable env (trim (theme (game w))) w <> None ->
   requests w' = requests w).
Proof.
  intros w'. subst w'.
  assert (Hr : keeps requests (random env)) by (intros ?; reflexivity).
  assert (Hd : forall a, keeps requests (dispatch a)) by (intros ? ?; reflexivity).
  set (w0 := snd (dispatch LOAD_PAIR_START w)).
  assert (He : requests (snd (ensurePool env (trim (theme (game w))) w0)) =
               match reusable env (trim (theme (game w))) w with
               | Some _ => requests w
               | None => requests (snd (fetchPool env (trim (theme (game w))) w0))
               end).
  { rewrite ensurePool_requests. reflexivity. }
  destruct (fetchPool_requests env (trim (theme (game w))) w0) as [[Hk Hf] | [Hk Hf]];
    rewrite Hf in He; change (requests w0) with (requests w) in He.
  - assert (Hsame : requests (snd (loadNextPair env bound w)) = requests w).
    { destruct (loadNextPair_after_ensure requests env bound w Hr Hd) as [H | H];
        [exact H |]. fold w0 in H. rewrite H, He.
      now destruct (reusable env (trim (theme (game w))) w). }
    split; [now left | intros _; exact Hsame].
  - destruct (loadNextPair_after_ensure requests env bound w Hr Hd) as [H | H].
    + split; [now left | intros _; exact H].
    + fold w0 in H. rewrite He in H.
      destruct (reusable env (trim (theme (game w))) w) as [pool |] eqn:Ec.
      * split; [now left | intros _; exact H].
      * split; [now right |]. intros [Hb | [Hb | Hb]]; try congruence.
        assert (Hblank : loadPairAttempt env bound w0 =
                         (Threw (Some emptyThemeMessage), w0)).
        { unfold loadPairAttempt. unfold bind at 1, getState at 1.
          change (theme (game w0)) with (theme (game w)).
          now rewrite (proj2 (truthy_empty _) Hb). }
        rewrite loadNextPair_unfold. fold w0. now rewrite Hblank.
Qed.

Lemma load_sends_at_most_one_request_witness :
  requests (snd (loadNextPair downEnv 3
                   (snd (dispatch (SET_THEME "  ") boardWorld))))
    = requests boardWorld /\
  requests (snd (loadNextPair sampleEnv 3 boardWorld)) = requests boardWorld.
Proof.
  split.
  - apply (proj2 (load_sends_at_most_one_request downEnv 3
                    (snd (dispatch (SET_THEME "  ") boardWorld)))).
    left. reflexivity.
  - apply (proj2 (load_sends_at_most_one_request sampleEnv 3 boardWorld)).
    right. right. vm_compute. discriminate.
Defined.

Lemma loadNextPairBegin_unfold env w :
  loadNextPairBegin env w =
    if negb (truthy (trim (theme (game w))))
    then (Returned None,
          snd (dispatch (LOAD_PAIR_ERROR emptyThemeMessage)
                 (snd (dispatch LOAD_PAIR_START w))))
    else
      bind (ensurePoolBegin env (trim (theme (game w))))
        (fun wt => ret (Some (trim (theme (game w)), wt)))
        (snd (dispatch LOAD_PAIR_START w)).
Proof.
  unfold loadNextPairBegin. unfold bind at 1 2, getState.
  cbn [fst snd dispatch game gameReducer theme].
  now destruct (negb (truthy (trim (theme (game w))))).
Qed.

Lemma loadNextPair_in_two_steps env bound w :
  exists r w1,
    loadNextPairBegin env w = (Returned r, w1) /\
    loadNextPair env bound w =
      match r with
      | None => (Returned tt, w1)
      | Some h => loadNextPairEnd env bound h w1
      end.
Proof.
  rewrite loadNextPair_unfold, loadPairAttempt_unfold, loadNextPairBegin_unfold.
  set (w0 := snd (dispatch LOAD_PAIR_START w)).
  change (theme (game w0)) with (theme (game w)).
  destruct (negb (truthy (trim (theme (game w))))).
  - eexists _, _. split; reflexivity.
  - destruct (ensurePool_in_two_steps env (trim (theme (game w))) w0)
      as (wt & w1 & Hb & Htwo).
    exists (Some (trim (theme (game w)), wt)), w1.
    split; [now rewrite (bind_run _ _ _ _ _ Hb) |].
    unfold loadNextPairEnd, tryCatch. cbn [fst snd].
    unfold bind at 1 3. now rewrite Htwo.
Qed.

Lemma loadNextPairBegin_keeps_cache env : keeps poolCache (loadNextPairBegin env).
Proof.
  pose proof (ensurePoolBegin_keeps_cache env) as Hb.
  unfold loadNextPairBegin. frame.
Qed.

Lemma loadNextPairEnd_cache env bound h w :
  poolCache (snd (loadNextPairEnd env bound h w))
  = poolCache (snd (ensurePoolEnd env (fst h) (snd h) w)).
Proof.
  unfold loadNextPairEnd.
  rewrite tryCatch_after by (intros e w0; reflexivity).
  apply bind_after. intros pool.
  apply keeps_bind;
    [apply pickTwoDistinct_keeps; intros ?; reflexivity |].
  intros [[l r] |]; [intros ?; reflexivity | apply keeps_throwError].
Qed.

Lemma ensurePoolEnd_keeps_keys env theme wt w key :
  is_Some (poolCache w !! key) ->
  is_Some (poolCache (snd (ensurePoolEnd env theme wt w)) !! key).
Proof.
  intros Hin.
  destruct (ensurePoolEnd_cases env theme wt w)
    as [(pool & _ & ->) | [(e & w' & -> & Hc) | (fresh & w1 & -> & Hc & Hp)]];
    cbn [snd cacheSet poolCache]; rewrite ?Hc; [exact Hin | exact Hin |].
  rewrite lookup_insert. case_decide; [eauto | exact Hin].
Qed.

Lemma providerStep_cache w w' :
  providerStep w w' ->
  (cacheOk (poolCache w) -> cacheOk (poolCache w')) /\
  (forall key, is_Some (poolCache w !! key) -> is_Some (poolCache w' !! key)).
Proof.
  intros [env w0 | env bound h w0 | a w0].
  - assert (E : poolCache (snd (loadNextPairBegin env w0)) = poolCache w0)
      by apply loadNextPairBegin_keeps_cache.
    rewrite E. split; auto.
  - rewrite loadNextPairEnd_cache. split.
    + apply ensurePoolEnd_cacheOk.
    + intros key. apply ensurePoolEnd_keeps_keys.
  - cbn [dispatch snd poolCache]. split; auto.
Qed.

(** The calls of the provider are runs of such steps. *)
Lemma provider_calls_are_steps env bound w :
  rtc providerStep w (snd (loadNextPair env bound w)) /\
  (forall vt sd, rtc providerStep w (snd (vote env bound vt sd w))) /\
  (forall x, providerStep w (snd (setTheme x w))) /\
  providerStep w (snd (undo w)).
Proof.
  assert (Hload : forall w0, rtc providerStep w0 (snd (loadNextPair env bound w0))).
  { intros w0.
    destruct (loadNextPair_in_two_steps env bound w0) as (r & w1 & Hb & Htwo).
    rewrite Htwo.
    assert (Hw1 : w1 = snd (loadNextPairBegin env w0)) by now rewrite Hb.
    eapply rtc_l; [apply (load_begins env w0) |]. rewrite <- Hw1.
    destruct r as [h |]; [| apply rtc_refl].
    apply rtc_once. apply load_ends. }
  split; [apply Hload |]. split; [| split; [intros x | ]; apply dispatches].
  intros vt sd.
  change (vote env bound vt sd w)
    with (loadNextPair env bound (snd (dispatch (VOTE vt sd) w))).
  eapply rtc_l; [apply (dispatches (VOTE vt sd) w) | apply Hload].
Qed.

(** X13. However the steps of loads, votes, theme changes, undos and resets
    follow one another, overlapping loads included: if every cached pool
    has 2 items or more, each with a display url, that stays so, and no key
    is ever removed from the cache. (The pool under a key may be replaced
    by the later of two overlapping loads of that key.) *)
Theorem provider_never_evicts w w' :
  rtc providerStep w w' ->
  cacheOk (poolCache w) ->
  cacheOk (poolCache w') /\
  (forall key, is_Some (poolCache w !! key) -> is_Some (poolCache w' !! key)).
Proof.
  induction 1 as [x | x y z Hxy _ IH]; intros Hok; [auto |].
  destruct (providerStep_cache x y Hxy) as [Hok' Hkeys].
  destruct (IH (Hok' Hok)) as [Hokz Hkeyz]. split; [exact Hokz |].
  intros key Hin. apply Hkeyz, Hkeys, Hin.
Qed.

(** The two loads of the mount, overlapping. *)
Lemma provider_never_evicts_witness :
  let w1 := snd (loadNextPairBegin raceEnv (initialWorld 0)) in
  let w2 := snd (loadNextPairBegin raceEnv w1) in
  let w3 := snd (loadNextPairEnd raceEnv 3
                   ("cats", Asked (fetch raceEnv 0 (searchParams raceEnv "cats")))
                   w2) in
  let w4 := snd (loadNextPairEnd raceEnv 3
                   ("cats", Asked (fetch raceEnv 1 (searchParams raceEnv "cats")))
                   w3) in
  cacheOk (poolCache w4) /\ is_Some (poolCache w4 !! "cats|pg").
Proof.
  cbv zeta.
  match goal with |- cacheOk (poolCache ?w4) /\ _ =>
    match w4 with snd (loadNextPairEnd _ _ _ ?w3) =>
      assert (H : cacheOk (poolCache w4) /\
                  (forall key, is_Some (poolCache w3 !! key) ->
                               is_Some (poolCache w4 !! key)))
    end
  end.
  2: { destruct H as [Hok Hkeys]. split; [exact Hok |].
       apply Hkeys. vm_compute. eauto. }
  apply provider_never_evicts.
  - apply rtc_once. apply load_ends.
  - refine (proj1 (provider_never_evicts (initialWorld 0) _ _ _)).
    + eapply rtc_l; [apply (load_begins raceEnv) |].
      eapply rtc_l; [apply (load_begins raceEnv) |].
      apply rtc_once. apply load_ends.
    + intros key pool. cbn [initialWorld poolCache]. now rewrite lookup_empty.
Defined.

(** ** The cache key *)

Lemma isWhiteSpace_lowerChar c : isWhiteSpace (lowerChar c) = isWhiteSpace c.
Proof. destruct c as [[] [] [] [] [] [] [] []]; reflexivity. Qed.

Lemma lowerChar_idem c : lowerChar (lowerChar c) = lowerChar c.
Proof. destruct c as [[] [] [] [] [] [] [] []]; reflexivity. Qed.

Lemma toLowerCase_idem s : toLowerCase (toLowerCase s) = toLowerCase s.
Proof. induction s as [| c s IH]; simpl; [reflexivity |]. now rewrite lowerChar_idem, IH. Qed.

Lemma trimStart_toLowerCase s : trimStart (toLowerCase s) = toLowerCase (trimStart s).
Proof.
  induction s as [| c s IH]; simpl; [reflexivity |].
  rewrite isWhiteSpace_lowerChar. now destruct (isWhiteSpace c).
Qed.

Lemma trimEnd_toLowerCase s : trimEnd (toLowerCase s) = toLowerCase (trimEnd s).
Proof.
  induction s as [| c s IH]; simpl; [reflexivity |].
  rewrite IH, isWhiteSpace_lowerChar.
  destruct (trimEnd s); simpl; [now destruct (isWhiteSpace c) | reflexivity].
Qed.

Lemma trim_toLowerCase s : trim (toLowerCase s) = toLowerCase (trim s).
Proof. unfold trim. now rewrite trimStart_toLowerCase, trimEnd_toLowerCase. Qed.

Lemma trimStart_allWhiteSpace s : allWhiteSpace s = true -> trimStart s = "".
Proof.
  induction s as [| c s IH]; simpl; [reflexivity |].
  destruct (isWhiteSpace c); [exact IH | discriminate].
Qed.

Lemma trimEnd_allWhiteSpace s : allWhiteSpace s = true -> trimEnd s = "".
Proof.
  induction s as [| c s IH]; simpl; [reflexivity |].
  destruct (isWhiteSpace c); [| discriminate].
  intros H. now rewrite (IH H).
Qed.

Lemma trimStart_padded pre x :
  allWhiteSpace pre = true -> trimStart (pre +:+ x) = trimStart x.
Proof.
  induction pre as [| c pre IH]; simpl; [reflexivity |].
  destruct (isWhiteSpace c); [exact IH | discriminate].
Qed.

Lemma trimEnd_padded x post :
  allWhiteSpace post = true -> trimEnd (x +:+ post) = trimEnd x.
Proof.
  intros Hp. induction x as [| c x IH]; simpl.
  - now apply trimEnd_allWhiteSpace.
  - now rewrite IH.
Qed.

Lemma trim_padded_end x post :
  allWhiteSpace post = true -> trim (x +:+ post) = trim x.
Proof.
  intros Hp. unfold trim. induction x as [| c x IH].
  - change ("" +:+ post) with post.
    now rewrite (trimStart_allWhiteSpace post Hp).
  - change (String c x +:+ post) with (String c (x +:+ post)).
    cbn [trimStart]. destruct (isWhiteSpace c); [exact IH |].
    change (String c (x +:+ post)) with (String c x +:+ post).
    now apply trimEnd_padded.
Qed.

(** X14. Themes that differ only in letter case and in white space around
    them have the same cache key, so they share one pool. *)
Theorem poolKey_ignores_case_and_padding env pre theme post :
  allWhiteSpace pre = true -> allWhiteSpace post = true ->
  poolKey env (pre +:+ theme +:+ post) = poolKey env theme /\
  poolKey env (toLowerCase theme) = poolKey env theme.
Proof.
  intros Hpre Hpost. unfold poolKey. split.
  - do 2 f_equal. unfold trim at 1. rewrite (trimStart_padded pre _ Hpre).
    exact (trim_padded_end theme post Hpost).
  - now rewrite trim_toLowerCase, toLowerCase_idem.
Qed.

Lemma poolKey_ignores_case_and_padding_witness :
  poolKey sampleEnv ("  " +:+ "Cats" +:+ " ") = poolKey sampleEnv "Cats" /\
  poolKey sampleEnv (toLowerCase "Cats") = poolKey sampleEnv "Cats".
Proof.
  apply (poolKey_ignores_case_and_padding sampleEnv "  " "Cats" " ");
    reflexivity.
Defined.

(** X15. The key tells ratings apart ("cats + pg" differs from "cats + g"):
    two providers have the same key for a theme only when their ratings are
    the same; the configured api key plays no part. *)
Theorem poolKey_separates_ratings env1 env2 theme :
  poolKey env1 theme = poolKey env2 theme <-> rating env1 = rating env2.
Proof.
  unfold poolKey. split.
  - intros H. apply String.app_inj in H. apply String.app_inj in H.
    destruct (rating env1), (rating env2); simpl in H; congruence.
  - now intros ->.
Qed.

(** * The task manager *)

Section TaskManagerFacts.
Import TaskManager.

(** ** Statistics *)

(** X16. The two statistics of the page add up: completed tasks plus
    pending tasks is the number of tasks. *)
Theorem completed_and_pending_partition (ts : list Task) :
  Z.of_nat (length (getCompletedTasks ts)) + getPendingTasksCount ts
    = Z.of_nat (length ts).
Proof.
  unfold getCompletedTasks, getPendingTasksCount.
  induction ts as [| t ts IH]; [reflexivity |].
  cbn [List.filter]. destruct (completed t); cbn [negb length]; lia.
Qed.

(** ** Sorting by date *)

(** The key the comparator orders by. *)
Lemma compareByDate_le order a b :
  compareByDate order a b <= 0 <->
  match order with
  | asc => createdAt a <= createdAt b
  | desc => createdAt b <= createdAt a
  end.
Proof. unfold compareByDate. destruct order; lia. Qed.

Lemma insertSorted_perm cmp x l : Permutation (insertSorted cmp x l) (x :: l).
Proof.
  induction l as [| y l IH]; simpl; [reflexivity |].
  destruct (cmp x y <=? 0); [reflexivity |].
  rewrite IH. apply perm_swap.
Qed.

Lemma sortWith_perm cmp l : Permutation (sortWith cmp l) l.
Proof.
  induction l as [| x l IH]; simpl; [reflexivity |].
  rewrite insertSorted_perm. now constructor.
Qed.

Lemma insertSorted_sorted order x l :
  StronglySorted (fun a b => compareByDate order a b <= 0) l ->
  StronglySorted (fun a b => compareByDate order a b <= 0)
    (insertSorted (compareByDate order) x l).
Proof.
  induction l as [| y l IH]; intros Hs; simpl.
  - constructor; constructor.
  - apply StronglySorted_inv in Hs. destruct Hs as [Hl Hy].
    destruct (Z.leb_spec (compareByDate order x y) 0) as [Hle | Hgt].
    + constructor; [constructor; assumption |].
      constructor; [exact Hle |].
      rewrite List.Forall_forall in *. intros z Hz. specialize (Hy z Hz).
      rewrite compareByDate_le in *. destruct order; lia.
    + constructor; [now apply IH |].
      rewrite List.Forall_forall in *. intros z Hz.
      apply (Permutation_in _ (insertSorted_perm _ x l)) in Hz.
      destruct Hz as [<- | Hz]; [| now apply Hy].
      unfold compareByDate in *. destruct order; lia.
Qed.

Lemma sortWith_sorted order l :
  StronglySorted (fun a b => compareByDate order a b <= 0)
    (sortWith (compareByDate order) l).
Proof.
  induction l as [| x l IH]; simpl; [constructor |].
  now apply insertSorted_sorted.
Qed.

Lemma insertSorted_stable order x l t :
  List.filter (fun a => createdAt a =? t) (insertSorted (compareByDate order) x l)
  = List.filter (fun a => createdAt a =? t) (x :: l).
Proof.
  induction l as [| y l IH]; [reflexivity |].
  cbn [insertSorted].
  destruct (Z.leb_spec (compareByDate order x y) 0) as [Hle | Hgt]; [reflexivity |].
  cbn [List.filter] in *. rewrite IH.
  destruct (Z.eqb_spec (createdAt x) t) as [Hx | Hx];
    destruct (Z.eqb_spec (createdAt y) t) as [Hy | Hy]; try reflexivity.
  exfalso. unfold compareByDate in Hgt. destruct order; lia.
Qed.

Lemma sortWith_stable order l t :
  List.filter (fun a => createdAt a =? t) (sortWith (compareByDate order) l)
  = List.filter (fun a => createdAt a =? t) l.
Proof.
  induction l as [| x l IH]; [reflexivity |].
  cbn [sortWith]. rewrite insertSorted_stable. cbn [List.filter]. now rewrite IH.
Qed.

(** There is one stable arrangement in date order: two lists in order that
    agree, date by date, on which tasks they hold and in what sequence, are
    equal. Any stable sort therefore returns what [sortWith] returns. *)
Lemma stable_sort_unique order (l1 : list Task) : forall l2,
  StronglySorted (fun a b => compareByDate order a b <= 0) l1 ->
  StronglySorted (fun a b => compareByDate order a b <= 0) l2 ->
  (forall t, List.filter (fun a => createdAt a =? t) l1
             = List.filter (fun a => createdAt a =? t) l2) ->
  l1 = l2.
Proof.
  induction l1 as [| x l1 IH]; intros l2 H1 H2 Hf.
  - destruct l2 as [| y l2]; [reflexivity |].
    specialize (Hf (createdAt y)). simpl in Hf.
    rewrite Z.eqb_refl in Hf. discriminate.
  - destruct l2 as [| y l2].
    { specialize (Hf (createdAt x)). simpl in Hf.
      rewrite Z.eqb_refl in Hf. discriminate. }
    apply StronglySorted_inv in H1. destruct H1 as [H1 Hx].
    apply StronglySorted_inv in H2. destruct H2 as [H2 Hy].
    rewrite List.Forall_forall in Hx, Hy.
    assert (Hk : createdAt x = createdAt y).
    { pose proof (Hf (createdAt x)) as Fx. pose proof (Hf (createdAt y)) as Fy.
      simpl in Fx, Fy. rewrite Z.eqb_refl in Fx, Fy.
      destruct (Z.eqb_spec (createdAt y) (createdAt x)) as [E | Hne]; [auto |].
      destruct (Z.eqb_spec (createdAt x) (createdAt y)) as [E | _]; [auto |].
      assert (Hxin : In x l2).
      { assert (Hin : In x (List.filter (fun a => createdAt a =? createdAt x) l2)).
        { rewrite <- Fx. now left. }
        now apply filter_In in Hin. }
      assert (Hyin : In y l1).
      { assert (Hin : In y (List.filter (fun a => createdAt a =? createdAt y) l1)).
        { rewrite Fy. now left. }
        now apply filter_In in Hin. }
      pose proof (Hx y Hyin) as Hxy. pose proof (Hy x Hxin) as Hyx.
      rewrite compareByDate_le in Hxy, Hyx. destruct order; lia. }
    assert (Hxy : x = y).
    { specialize (Hf (createdAt x)). simpl in Hf.
      rewrite <- Hk, Z.eqb_refl in Hf. now inversion Hf. }
    subst y. f_equal. apply IH; try assumption.
    intros t. specialize (Hf t). simpl in Hf.
    destruct (createdAt x =? t); [now inversion Hf | exact Hf].
Qed.

(** X17. [sortTasksByDate] returns the tasks it was given, each as often as
    before, in date order (oldest first for "asc", newest first for "desc"),
    and tasks of the same date keep the order they had in the input. *)
Theorem sortTasksByDate_sorts_stably (ts : list Task) order :
  Permutation (sortTasksByDate ts order) ts /\
  StronglySorted
    (fun a b => match order with
                | asc => createdAt a <= createdAt b
                | desc => createdAt b <= createdAt a
                end)
    (sortTasksByDate ts order) /\
  (forall t, List.filter (fun a => createdAt a =? t) (sortTasksByDate ts order)
             = List.filter (fun a => createdAt a =? t) ts).
Proof.
  unfold sortTasksByDate. split; [apply sortWith_perm |]. split.
  - pose proof (sortWith_sorted order ts) as H.
    induction H as [| a l Hl IH Ha]; constructor; [exact IH |].
    rewrite List.Forall_forall in *. intros z Hz. specialize (Ha z Hz).
    now apply compareByDate_le in Ha.
  - apply sortWith_stable.
Qed.

(** X18. When no two tasks have the same date, newest-first is the reverse
    of oldest-first. (With equal dates it is not: in both orders such tasks
    keep their input order.) *)
Theorem sort_desc_reverses_asc (ts : list Task) :
  NoDup (map createdAt ts) ->
  sortTasksByDate ts desc = rev (sortTasksByDate ts asc).
Proof.
  intros Hnd. unfold sortTasksByDate. symmetry.
  apply (stable_sort_unique desc).
  - pose proof (sortWith_sorted asc ts) as H.
    induction H as [| a l Hl IH Ha]; [constructor |]. simpl.
    apply StronglySorted_app_2; [| exact IH | constructor; constructor].
    intros z1 z2 Hz1 Hz2. apply list_elem_of_In in Hz1, Hz2.
    destruct Hz2 as [<- | []]. rewrite <- in_rev in Hz1.
    rewrite List.Forall_forall in Ha. specialize (Ha z1 Hz1).
    rewrite compareByDate_le in *. lia.
  - apply sortWith_sorted.
  - intros t. rewrite sortWith_stable.
    assert (Hrev : forall l : list Task,
              List.filter (fun a => createdAt a =? t) (rev l)
              = rev (List.filter (fun a => createdAt a =? t) l)).
    { induction l as [| a l IH]; [reflexivity |]. simpl.
      rewrite List.filter_app, IH. simpl.
      destruct (createdAt a =? t); simpl; [reflexivity | now rewrite app_nil_r]. }
    rewrite Hrev, sortWith_stable.
    assert (Hshort : forall l : list Task, NoDup (map createdAt l) ->
              (length (List.filter (fun a => (createdAt a =? t)%Z) l) <= 1)%nat).
    { induction l as [| a l IH]; intros Hl; [simpl; lia |].
      simpl in Hl. apply NoDup_cons in Hl. destruct Hl as [Hnin Hl].
      simpl. destruct (Z.eqb_spec (createdAt a) t) as [E | _]; [| now apply IH].
      simpl. destruct (List.filter (fun a0 => createdAt a0 =? t) l)
        as [| b rest] eqn:Ef; [simpl; lia |].
      exfalso. apply Hnin. apply list_elem_of_In, in_map_iff. exists b.
      assert (Hb : In b (List.filter (fun a0 => createdAt a0 =? t) l))
        by (rewrite Ef; now left).
      apply filter_In in Hb. destruct Hb as [Hb Ht].
      apply Z.eqb_eq in Ht. split; [congruence | exact Hb]. }
    specialize (Hshort ts Hnd).
    destruct (List.filter (fun a => createdAt a =? t) ts) as [| a [| b rest]];
      simpl in *; try reflexivity; lia.
Qed.

Lemma sort_desc_reverses_asc_witness :
  sortTasksByDate (firstn 2 sampleTasks) desc
    = rev (sortTasksByDate (firstn 2 sampleTasks) asc).
Proof.
  apply (sort_desc_reverses_asc (firstn 2 sampleTasks)).
  apply NoDup_cons_2; [| apply NoDup_cons_2; [| apply NoDup_nil_2]].
  - intros H. apply list_elem_of_In in H. destruct H as [H | []]. discriminate H.
  - intros H. apply list_elem_of_In in H. destruct H.
Defined.

(** With equal dates the two orders are not mirror images. *)
Example sort_desc_is_not_rev_asc :
  sortTasksByDate sampleTasks desc <> rev (sortTasksByDate sampleTasks asc).
Proof. vm_compute. discriminate. Qed.

End TaskManagerFacts.

Section TaskManagerHandlers.
Import TaskManager.

(** ** Deleting, toggling, creating *)

(** X19. [handleDeleteTask] removes every task with the given id (also
    several, when ids collide) and nothing else: the tasks that remain are
    the others, in their order; the number of tasks drops by the number of
    tasks with that id; with no such task the state is unchanged. *)
Theorem delete_removes_exactly_that_id taskId st :
  let st' := handleDeleteTask taskId st in
  (forall t, In t (tasks st') <-> In t (tasks st) /\ id t <> taskId) /\
  tasks st' = List.filter (fun t => negb (id t =? taskId)) (tasks st) /\
  (length (tasks st')
   + length (List.filter (fun t => (id t =? taskId)%Z) (tasks st))
   = length (tasks st))%nat /\
  ((forall t, In t (tasks st) -> id t <> taskId) -> st' = st) /\
  handleDeleteTask taskId st' = st'.
Proof.
  cbv zeta. unfold handleDeleteTask. cbn [tasks loading error filter priorityFilter formData].
  assert (Hlen : forall l : list Task,
    (length (List.filter (fun t => negb (id t =? taskId)%Z) l) +
     length (List.filter (fun t => (id t =? taskId)%Z) l) = length l)%nat).
  { induction l as [| a l IH]; [reflexivity |]. cbn [List.filter].
    destruct (id a =? taskId); cbn [negb length]; lia. }
  assert (Hid : forall l : list Task,
    (forall t, In t l -> id t <> taskId) ->
    List.filter (fun t => negb (id t =? taskId)) l = l).
  { induction l as [| a l IH]; intros H; [reflexivity |]. cbn [List.filter].
    destruct (Z.eqb_spec (id a) taskId) as [E | _].
    - exfalso. apply (H a); [now left | exact E].
    - cbn [negb]. f_equal. apply IH. intros t Ht. apply H. now right. }
  split; [| split; [reflexivity | split; [apply Hlen | split]]].
  - intros t. rewrite filter_In. rewrite negb_true_iff, Z.eqb_neq. tauto.
  - intros H. rewrite (Hid _ H). now destruct st.
  - f_equal. apply Hid. intros t Ht. apply filter_In in Ht.
    destruct Ht as [_ Ht]. now rewrite negb_true_iff, Z.eqb_neq in Ht.
Qed.

Lemma delete_removes_exactly_that_id_witness :
  handleDeleteTask 5 sampleApp = sampleApp /\
  length (tasks (handleDeleteTask 7 sampleApp)) = 1%nat.
Proof.
  split.
  - refine (proj1 (proj2 (proj2 (proj2
              (delete_removes_exactly_that_id 5 sampleApp)))) _).
    intros t [<- | [<- | [<- | []]]]; discriminate.
  - reflexivity.
Defined.

Lemma toggled_toggled t : toggled (toggled t) = t.
Proof. destruct t as [i ti d c p ca]. unfold toggled. simpl. now rewrite negb_involutive. Qed.

Lemma find_map_id (f : Task -> Task) taskId (l : list Task) :
  (forall t, id (f t) = id t) ->
  (List.find (fun t => id t =? taskId) (map f l) = None <->
   List.find (fun t => id t =? taskId) l = None).
Proof.
  intros Hf. induction l as [| a l IH]; simpl; [tauto |].
  rewrite Hf. destruct (id a =? taskId); [split; discriminate | exact IH].
Qed.

(** X20. [handleToggleTask] flips [completed] on every task with the given
    id and on no other, keeps ids, order and number of tasks, and does
    nothing when no task has that id; toggling twice gives the state back. *)
Theorem toggle_flips_and_undoes taskId st :
  let st' := handleToggleTask taskId st in
  handleToggleTask taskId st' = st /\
  map id (tasks st') = map id (tasks st) /\
  (forall n t, tasks st !! n = Some t ->
     tasks st' !! n = Some (if id t =? taskId then toggled t else t)) /\
  ((forall t, In t (tasks st) -> id t <> taskId) -> st' = st).
Proof.
  cbv zeta.
  set (flip := fun t : Task => if id t =? taskId then toggled t else t).
  assert (Hflip_id : forall t, id (flip t) = id t).
  { intros t. unfold flip. now destruct (id t =? taskId). }
  assert (Hflip2 : forall t, flip (flip t) = t).
  { intros t. unfold flip. destruct (id t =? taskId) eqn:E; [| now rewrite E].
    change (id (toggled t)) with (id t). rewrite E. apply toggled_toggled. }
  unfold handleToggleTask. fold flip.
  destruct (List.find (fun t => id t =? taskId) (tasks st)) as [found |] eqn:Ef.
  - cbn [tasks]. fold flip.
    destruct (List.find (fun t => id t =? taskId) (map flip (tasks st)))
      as [found' |] eqn:Ef'.
    2: { pose proof (proj1 (find_map_id flip taskId (tasks st) Hflip_id) Ef') as Hn.
         rewrite Hn in Ef. discriminate. }
    split; [| split; [| split]].
    + cbn [tasks loading error filter priorityFilter formData].
      rewrite map_map. rewrite (map_ext _ (fun t => t) Hflip2), map_id.
      now destruct st.
    + rewrite map_map. apply map_ext. exact Hflip_id.
    + intros n t Hn. rewrite list_lookup_fmap_Some' || idtac.
      change (map flip (tasks st)) with (flip <$> tasks st).
      rewrite list_lookup_fmap, Hn. reflexivity.
    + intros Hnone. apply find_some in Ef. destruct Ef as [Hin He].
      apply Z.eqb_eq in He. now apply Hnone in Hin.
  - rewrite Ef. split; [reflexivity |]. split; [reflexivity |].
    split; [| reflexivity].
    intros n t Hn. rewrite Hn. f_equal.
    destruct (Z.eqb_spec (id t) taskId) as [E | _]; [| reflexivity].
    exfalso.
    assert (Hin : In t (tasks st)).
    { apply list_elem_of_In. now apply list_elem_of_lookup_2 with n. }
    pose proof (find_none _ _ Ef t Hin) as Hf. cbv beta in Hf.
    apply Z.eqb_neq in Hf. contradiction.
Qed.

Lemma toggle_flips_and_undoes_witness :
  handleToggleTask 7 (handleToggleTask 7 sampleApp) = sampleApp /\
  handleToggleTask 5 sampleApp = sampleApp.
Proof.
  split.
  - exact (proj1 (toggle_flips_and_undoes 7 sampleApp)).
  - refine (proj2 (proj2 (proj2 (toggle_flips_and_undoes 5 sampleApp))) _).
    intros t [<- | [<- | [<- | []]]]; discriminate.
Defined.

(** X21. [handleCreateTask] with a blank title alerts and changes nothing.
    Otherwise it shows no alert, appends one pending task at the end, with
    the title and description as typed (not trimmed), the priority of the
    form, the clock value as id; the earlier tasks stay as they are, the
    pending count rises by 1, the completed tasks are the same, and the form
    is reset to empty fields and medium priority. *)
Theorem create_appends_one_pending_task idNow createdNow st :
  (trim (form_title (formData st)) = "" ->
   handleCreateTask idNow createdNow st = (st, Some "Please enter a task title")) /\
  (trim (form_title (formData st)) <> "" ->
   let st' := fst (handleCreateTask idNow createdNow st) in
   snd (handleCreateTask idNow createdNow st) = None /\
   tasks st' =
     (tasks st ++
      [ {| id := idNow; title := form_title (formData st);
           description := form_description (formData st); completed := false;
           priority := form_priority (formData st); createdAt := createdNow |} ])%list /\
   getPendingTasksCount (tasks st') = getPendingTasksCount (tasks st) + 1 /\
   getCompletedTasks (tasks st') = getCompletedTasks (tasks st) /\
   formData st' = emptyForm /\
   trim (form_title (formData st')) = "").
Proof.
  unfold handleCreateTask. split.
  - intros H. now rewrite (proj2 (truthy_empty _) H).
  - intros H. rewrite (proj2 (truthy_nonempty _) H). cbn [negb fst snd tasks formData].
    split; [reflexivity |]. split; [reflexivity |].
    unfold getPendingTasksCount, getCompletedTasks, createTask.
    rewrite !List.filter_app, !length_app. cbn [List.filter completed negb length].
    split; [lia |]. split; [now rewrite app_nil_r | split; reflexivity].
Qed.

Lemma create_appends_one_pending_task_witness :
  getPendingTasksCount (tasks (fst (handleCreateTask 99 100 sampleApp))) = 3 /\
  fst (handleCreateTask 1 2 (fst (handleCreateTask 99 100 sampleApp)))
    = fst (handleCreateTask 99 100 sampleApp).
Proof.
  split.
  - pose proof (proj2 (create_appends_one_pending_task 99 100 sampleApp)
                  ltac:(vm_compute; discriminate)) as H.
    cbv zeta in H. destruct H as (_ & _ & Hp & _). exact Hp.
  - pose proof (proj1 (create_appends_one_pending_task 1 2
                         (fst (handleCreateTask 99 100 sampleApp))) eq_refl) as H.
    now rewrite H.
Defined.

(** ** The list on the page *)

Lemma filter_filter {A} (p q : A -> bool) (l : list A) :
  List.filter q (List.filter p l) = List.filter (fun x => p x && q x) l.
Proof.
  induction l as [| a l IH]; [reflexivity |]. cbn [List.filter].
  destruct (p a); cbn [List.filter andb]; [destruct (q a) |]; now rewrite IH.
Qed.

Lemma StronglySorted_weaken {A} (R R' : A -> A -> Prop) (l : list A) :
  (forall a b, R a b -> R' a b) -> StronglySorted R l -> StronglySorted R' l.
Proof.
  intros HR H. induction H as [| a l Hl IH Ha]; [constructor |].
  constructor; [exact IH |].
  rewrite List.Forall_forall in *. intros z Hz. apply HR, Ha, Hz.
Qed.

(** X22. The list [getFilteredTasks] renders holds exactly the tasks that
    pass the status filter and the priority filter, each as often as it is
    in the state, newest first, tasks of the same date in their stored
    order. *)
Theorem filtered_tasks_are_the_passing_ones st :
  Permutation (getFilteredTasks st) (List.filter (passes st) (tasks st)) /\
  (forall t, In t (getFilteredTasks st) <-> In t (tasks st) /\ passes st t = true) /\
  StronglySorted (fun a b => createdAt b <= createdAt a) (getFilteredTasks st) /\
  (forall d, List.filter (fun a => createdAt a =? d) (getFilteredTasks st)
             = List.filter (fun a => createdAt a =? d)
                 (List.filter (passes st) (tasks st))).
Proof.
  assert (E : getFilteredTasks st
              = sortWith (compareByDate desc) (List.filter (passes st) (tasks st))).
  { unfold getFilteredTasks, sortTasksByDate, passes, getCompletedTasks,
      filterTasksByPriority. cbv zeta. f_equal.
    destruct (filter st); destruct (priorityFilter st) as [p |];
      rewrite ?filter_filter; try reflexivity;
      try (apply List.filter_ext; intros a; now rewrite andb_true_r).
    induction (tasks st) as [| a l IH]; [reflexivity |]. cbn [List.filter andb].
    f_equal. exact IH. }
  rewrite E. split; [apply sortWith_perm |]. split; [| split].
  - intros t. rewrite <- filter_In. split; intros H.
    + exact (Permutation_in _ (sortWith_perm _ _) H).
    + exact (Permutation_in _ (Permutation_sym (sortWith_perm _ _)) H).
  - apply (StronglySorted_weaken
             (fun a b => compareByDate desc a b <= 0));
      [| apply sortWith_sorted].
    intros a b Hab. now apply (compareByDate_le desc) in Hab.
  - intros d. apply sortWith_stable.
Qed.

End TaskManagerHandlers.
